(** * MFEM group communication: a model of [general/communication.hpp]

    The development embeds the classes declared in the header
    ([VarMessage], [GroupTopology], [GroupCommunicator]) and proves the
    behavioural properties stated for them.  MPI is an external library: it
    is represented by a small mailbox model of the calling process. *)

From stdpp Require Import base option list gmap sorting.
From Stdlib Require Import ZArith Lia.
From Stdlib Require Import Strings.Byte.

Local Open Scope Z_scope.

(** ** Machine integers *)

Definition INT_MAX : Z := 2 ^ 31 - 1.

(** Conversion of an unsigned [size_t] value to a 32-bit [int], as done by
    [int recv_left = rank_msg.size()] and by passing [data.length()] as the
    [int count] of [MPI_Isend]. *)
Definition int_of_size_t (n : nat) : Z :=
  (Z.of_nat n + 2 ^ 31) mod 2 ^ 32 - 2 ^ 31.

(** ** Outcomes of a call *)

(** The assertion sites of the header. *)
Inductive assertion :=
  | NegativeSize          (* Recv: MFEM_ASSERT(size >= 0) *)
  | CountMismatch         (* Recv: MFEM_VERIFY(count == size) *)
  | UnexpectedMessage     (* RecvAll: "Unexpected message (tag ..) from rank .." *)
  | PendingSendOnDestroy  (* ~VarMessage: "WaitAllSent was not called after Isend" *)
  | PendingSendOnCopy     (* copy ctor: "Cannot copy message with a pending send." *)
  | ObjectInUse.          (* GroupCommunicator: Begin while locked *)

Inductive failure :=
  | Abort (a : assertion)   (* a failed assertion terminates the process *)
  | TransportError          (* an MPI call reports an error *)
  | LengthError             (* std::string::resize beyond max_size *)
  | Blocked.                (* a blocking call that never returns *)

Inductive result (A : Type) :=
  | Ok (a : A)
  | Fail (f : failure).
Arguments Ok {A} a.
Arguments Fail {A} f.

Definition is_ok {A} (r : result A) : bool :=
  match r with Ok _ => true | Fail _ => false end.

(** A call fails fatally when the process is terminated by an assertion. *)
Definition fatal {A} (r : result A) : Prop := ∃ a, r = Fail (Abort a).

(** Computations over a state [S] that may fail. *)
Definition comp (S A : Type) : Type := S → result (A * S).

Global Instance comp_ret {S} : MRet (comp S) := λ A a s, Ok (a, s).
Global Instance comp_bind {S} : MBind (comp S) := λ A B f c s,
  match c s with
  | Ok (a, s') => f a s'
  | Fail e => Fail e
  end.

Definition raise {S A} (e : failure) : comp S A := λ _, Fail e.

(** ** The MPI mailbox of the calling process *)

Definition MPI_Comm := Z.

(** [MPI_Request]: [None] is [MPI_REQUEST_NULL]. *)
Definition MPI_Request := option nat.
Definition MPI_REQUEST_NULL : MPI_Request := None.

Record Envelope := mkEnvelope {
  env_comm : MPI_Comm;
  env_source : Z;
  env_tag : Z;
  env_payload : list byte
}.

Record Posted := mkPosted {
  post_comm : MPI_Comm;
  post_dest : Z;
  post_tag : Z;
  post_payload : list byte;
  post_request : nat
}.

Record MPI_Status := mkStatus {
  MPI_SOURCE : Z;
  MPI_TAG : Z;
  status_count : Z
}.

(** Calls observed during a run, oldest first. *)
Inductive Call :=
  | CallEncode (rank : Z)
  | CallDecode (rank : Z)
  | CallIsend (dest : Z) (count : Z)
  | CallProbe
  | CallIprobe
  | CallRecv (source : Z) (size : Z).

Global Instance Call_eq_dec : EqDecision Call.
Proof. solve_decision. Defined.

(** State of the calling process: the messages that arrive for it, in
    arrival order; the sends it has posted; the next fresh request handle;
    the calls made so far.  A blocking call that finds no matching message in
    [inbox] never returns. *)
Record Proc := mkProc {
  inbox : list Envelope;
  outbox : list Posted;
  next_request : nat;
  calls : list Call
}.

Abbreviation mpi := (comp Proc).

Definition log (c : Call) : mpi unit := λ w,
  Ok (tt, mkProc (inbox w) (outbox w) (next_request w) (calls w ++ [c])).

(** Source selector of a receive or probe: [None] is [MPI_ANY_SOURCE]. *)
Definition matches (comm : MPI_Comm) (source : option Z) (tag : Z)
    (e : Envelope) : bool :=
  bool_decide (env_comm e = comm)
  && match source with
     | None => true
     | Some s => bool_decide (env_source e = s)
     end
  && bool_decide (env_tag e = tag).

(** The earliest message satisfying [p], together with the other messages. *)
Fixpoint extract (p : Envelope → bool) (l : list Envelope)
    : option (Envelope * list Envelope) :=
  match l with
  | [] => None
  | e :: l' =>
      if p e then Some (e, l')
      else match extract p l' with
           | Some (x, r) => Some (x, e :: r)
           | None => None
           end
  end.

Definition status_of (e : Envelope) : MPI_Status :=
  mkStatus (env_source e) (env_tag e) (Z.of_nat (length (env_payload e))).

Definition MPI_Isend (buf : list byte) (count : Z) (dest tag : Z)
    (comm : MPI_Comm) : mpi MPI_Request := λ w,
  if count <? 0 then Fail TransportError
  else
    let r := next_request w in
    Ok (Some r,
        mkProc (inbox w)
               (outbox w ++ [mkPosted comm dest tag (take (Z.to_nat count) buf) r])
               (S r)
               (calls w ++ [CallIsend dest count])).

Definition MPI_Probe (source : option Z) (tag : Z) (comm : MPI_Comm)
    : mpi MPI_Status := λ w,
  match extract (matches comm source tag) (inbox w) with
  | None => Fail Blocked
  | Some (e, _) =>
      Ok (status_of e,
          mkProc (inbox w) (outbox w) (next_request w) (calls w ++ [CallProbe]))
  end.

(** Returns the flag and, when it is set, the status. *)
Definition MPI_Iprobe (source : option Z) (tag : Z) (comm : MPI_Comm)
    : mpi (option MPI_Status) := λ w,
  let w' := mkProc (inbox w) (outbox w) (next_request w)
                   (calls w ++ [CallIprobe]) in
  match extract (matches comm source tag) (inbox w) with
  | None => Ok (None, w')
  | Some (e, _) => Ok (Some (status_of e), w')
  end.

Definition MPI_Get_count (st : MPI_Status) : Z := status_count st.

(** Blocking receive into [buf], whose capacity is [count] bytes.  A message
    longer than [count] is a truncation error; a shorter one overwrites a
    prefix of [buf]. *)
Definition MPI_Recv (buf : list byte) (count : Z) (source tag : Z)
    (comm : MPI_Comm) : mpi (list byte * MPI_Status) := λ w,
  if count <? 0 then Fail TransportError
  else match extract (matches comm (Some source) tag) (inbox w) with
       | None => Fail Blocked
       | Some (e, rest) =>
           if count <? Z.of_nat (length (env_payload e)) then Fail TransportError
           else
             Ok ((env_payload e ++ drop (length (env_payload e)) buf, status_of e),
                 mkProc rest (outbox w) (next_request w)
                        (calls w ++ [CallRecv source count]))
       end.

(** The messages in the mailbox that a probe or receive with this selector
    matches, in arrival order. *)
Definition pending (comm : MPI_Comm) (source : option Z) (tag : Z) (w : Proc)
    : list Envelope :=
  filter (λ e, matches comm source tag e = true) (inbox w).

(** The messages in the mailbox that the selector does not match. *)
Definition others (comm : MPI_Comm) (source : option Z) (tag : Z) (w : Proc)
    : list Envelope :=
  filter (λ e, matches comm source tag e ≠ true) (inbox w).

(** ** Assertion macros *)

(** Modelled from the spec: the macros [MFEM_ASSERT] and [MFEM_VERIFY] are
    defined outside this header; a violated assertion is fatal and aborts the
    process. *)
Definition MFEM_ASSERT (c : bool) (a : assertion) : mpi unit := λ w,
  if c then Ok (tt, w) else Fail (Abort a).

(** Modelled from the spec: [MFEM_VERIFY], defined outside this header like
    [MFEM_ASSERT]; the header compiles its one use under [MFEM_DEBUG] only. *)
Definition MFEM_VERIFY (c : bool) (a : assertion) : mpi unit := λ w,
  if c then Ok (tt, w) else Fail (Abort a).

(** ** VarMessage *)

(** [std::string::resize] with an [int] argument: a negative value converts to
    a [size_t] beyond [max_size]. *)
Definition string_resize (size : Z) (s : list byte) : mpi (list byte) :=
  if size <? 0 then raise LengthError
  else mret (resize (Z.to_nat size) x00 s).

(** A message object: the two fields of the struct and the state [D] that a
    derived class adds. *)
Record VarMessage (D : Type) := mkVarMessage {
  data : list byte;
  send_request : MPI_Request;
  derived : D
}.
Arguments mkVarMessage {D} _ _ _.
Arguments data {D} _.
Arguments send_request {D} _.
Arguments derived {D} _.

(** The virtual hooks of the struct. *)
Class Codec (D : Type) := {
  Encode : Z → VarMessage D → VarMessage D;
  Decode : Z → VarMessage D → VarMessage D
}.

(** The base class: both hooks have an empty body. *)
Global Instance base_codec : Codec unit := {|
  Encode := λ _ m, m;
  Decode := λ _ m, m
|}.

Definition set_data {D} (m : VarMessage D) (s : list byte) : VarMessage D :=
  mkVarMessage s (send_request m) (derived m).

Definition set_send_request {D} (m : VarMessage D) (r : MPI_Request)
    : VarMessage D :=
  mkVarMessage (data m) r (derived m).

Section VarMessage.
Context (Tag : Z) (MFEM_DEBUG : bool).
Context {D : Type} `{!Codec D} `{!Inhabited D}.

(** [VarMessage()] *)
Definition VarMessage_new : VarMessage D :=
  mkVarMessage [] MPI_REQUEST_NULL inhabitant.

Definition Clear (this : VarMessage D) : VarMessage D :=
  mkVarMessage [] MPI_REQUEST_NULL (derived this).

Definition Isend (this : VarMessage D) (rank : Z) (comm : MPI_Comm)
    : mpi (VarMessage D) :=
  _ ← log (CallEncode rank);
  let this := Encode rank this in
  req ← MPI_Isend (data this) (int_of_size_t (length (data this)))
                  rank Tag comm;
  mret (set_send_request this req).

(** The reference parameters [rank] and [size] are returned. *)
Definition Probe (rank size : Z) (comm : MPI_Comm) : mpi (Z * Z) :=
  status ← MPI_Probe None Tag comm;
  let rank := MPI_SOURCE status in
  let size := MPI_Get_count status in
  mret (rank, size).

Definition IProbe (rank size : Z) (comm : MPI_Comm) : mpi (bool * Z * Z) :=
  flag ← MPI_Iprobe None Tag comm;
  match flag with
  | None => mret (false, rank, size)
  | Some status =>
      let rank := MPI_SOURCE status in
      let size := MPI_Get_count status in
      mret (true, rank, size)
  end.

Definition Recv (this : VarMessage D) (rank size : Z) (comm : MPI_Comm)
    : mpi (VarMessage D) :=
  _ ← MFEM_ASSERT (0 <=? size) NegativeSize;
  buf ← string_resize size (data this);
  '(buf, status) ← MPI_Recv buf size rank Tag comm;
  _ ← (if MFEM_DEBUG
       then let count := MPI_Get_count status in
            MFEM_VERIFY (count =? size) CountMismatch
       else mret tt);
  _ ← log (CallDecode rank);
  mret (Decode rank (set_data this buf)).

Definition RecvDrop (this : VarMessage D) (rank size : Z) (comm : MPI_Comm)
    : mpi (VarMessage D) :=
  buf ← string_resize size (data this);
  '(buf, status) ← MPI_Recv buf size rank Tag comm;
  buf ← string_resize 0 buf;
  mret (set_data this buf).

(** [rank_msg[rank]]: a missing key is inserted with a default-constructed
    message. *)
Definition map_at (rank_msg : gmap Z (VarMessage D)) (rank : Z)
    : VarMessage D :=
  default VarMessage_new (rank_msg !! rank).

(** The body of the [while (recv_left > 0)] loop runs once per unit of
    [recv_left]. *)
Fixpoint RecvAll_loop (recv_left : nat) (rank_msg : gmap Z (VarMessage D))
    (comm : MPI_Comm) : mpi (gmap Z (VarMessage D)) :=
  match recv_left with
  | O => mret rank_msg
  | S recv_left =>
      '(rank, size) ← Probe 0 0 comm;
      _ ← MFEM_ASSERT (bool_decide (is_Some (rank_msg !! rank)))
                      UnexpectedMessage;
      msg ← Recv (map_at rank_msg rank) rank size comm;
      RecvAll_loop recv_left (<[rank := msg]> rank_msg) comm
  end.

Definition RecvAll (rank_msg : gmap Z (VarMessage D)) (comm : MPI_Comm)
    : mpi (gmap Z (VarMessage D)) :=
  let recv_left := int_of_size_t (size rank_msg) in
  RecvAll_loop (Z.to_nat recv_left) rank_msg comm.

(** The calls of one loop iteration of [RecvAll] per received message. *)
Definition recv_calls (es : list Envelope) : list Call :=
  es ≫= λ e, [CallProbe;
               CallRecv (env_source e) (Z.of_nat (length (env_payload e)));
               CallDecode (env_source e)].

(** The effect on the map of one loop iteration of [RecvAll] that receives
    the message [e]. *)
Definition deliver (rank_msg : gmap Z (VarMessage D)) (e : Envelope)
    : gmap Z (VarMessage D) :=
  <[env_source e :=
      Decode (env_source e)
             (set_data (map_at rank_msg (env_source e)) (env_payload e))]>
    rank_msg.

(** [~VarMessage()] *)
Definition VarMessage_destroy (this : VarMessage D) : mpi unit :=
  MFEM_ASSERT (bool_decide (send_request this = MPI_REQUEST_NULL))
              PendingSendOnDestroy.

(** [VarMessage(const VarMessage &other)] *)
Definition VarMessage_copy (other : VarMessage D) : mpi (VarMessage D) :=
  let this := mkVarMessage (data other) (send_request other) (derived other) in
  _ ← MFEM_ASSERT (bool_decide (send_request this = MPI_REQUEST_NULL))
                  PendingSendOnCopy;
  mret this.

End VarMessage.

(** ** Array and Table *)

(** Modelled from the spec: [Array<int>] and [Table] are declared in other
    headers.  An array is a sequence indexed from 0 and a table maps a row
    index to an ordered list; an index out of range has no value. *)
Definition Array_at (a : list Z) (i : Z) : option Z :=
  if i <? 0 then None else a !! Z.to_nat i.

Definition Table := list (list Z).

Definition Table_Size (t : Table) : Z := Z.of_nat (length t).

Definition Table_GetRow (t : Table) (i : Z) : option (list Z) :=
  if i <? 0 then None else t !! Z.to_nat i.

Definition Table_RowSize (t : Table) (i : Z) : option Z :=
  row ← Table_GetRow t i; Some (Z.of_nat (length row)).

(** ** GroupTopology *)

Record GroupTopology := mkGroupTopology {
  MyComm : MPI_Comm;
  group_lproc : Table;            (* neighbor ids (lproc) in each group *)
  groupmaster_lproc : list Z;     (* master neighbor id for each group *)
  lproc_proc : list Z;            (* MPI rank of each neighbor *)
  group_mgroup : list Z           (* group --> group number in the master *)
}.

(** [GroupTopology()], [GroupTopology(MPI_Comm comm)] and [SetComm]. *)
Definition GroupTopology_new : GroupTopology := mkGroupTopology 0 [] [] [] [].

Definition GroupTopology_on (comm : MPI_Comm) : GroupTopology :=
  mkGroupTopology comm [] [] [] [].

Definition SetComm (gt : GroupTopology) (comm : MPI_Comm) : GroupTopology :=
  mkGroupTopology comm (group_lproc gt) (groupmaster_lproc gt) (lproc_proc gt)
                  (group_mgroup gt).

(** Position of the first occurrence of [x] in [l], or -1. *)
Definition index_of `{EqDecision A} (x : A) (l : list A) : Z :=
  match list_find (λ y, y = x) l with
  | Some (i, _) => Z.of_nat i
  | None => -1
  end.

(** Modelled from the spec: the election rule of [Create], the lowest
    participating rank of the group. *)
Definition lowest_rank (s : gset Z) : Z :=
  match elements s with
  | [] => 0
  | r :: rs => foldr Z.min r rs
  end.

Section GroupTopology.
(** [MPI_Comm_rank]: the rank of the calling process in a communicator. *)
Variable MPI_Comm_rank : MPI_Comm → Z.
Variable MPI_Comm_size : MPI_Comm → Z.
(** The membership sets handed to [Create] on each rank of the communicator;
    the exchange of [Create] makes the master's numbering known. *)
Variable peer_groups : Z → list (gset Z).

Definition GetComm (gt : GroupTopology) : MPI_Comm := MyComm gt.
Definition MyRank (gt : GroupTopology) : Z := MPI_Comm_rank (MyComm gt).
Definition NRanks (gt : GroupTopology) : Z := MPI_Comm_size (MyComm gt).

Definition NGroups (gt : GroupTopology) : Z := Table_Size (group_lproc gt).
Definition GetNumNeighbors (gt : GroupTopology) : Z :=
  Z.of_nat (length (lproc_proc gt)).
Definition GetNeighborRank (gt : GroupTopology) (i : Z) : option Z :=
  Array_at (lproc_proc gt) i.
Definition IAmMaster (gt : GroupTopology) (g : Z) : option bool :=
  m ← Array_at (groupmaster_lproc gt) g; Some (bool_decide (m = 0)).
Definition GetGroupMaster (gt : GroupTopology) (g : Z) : option Z :=
  Array_at (groupmaster_lproc gt) g.
Definition GetGroupMasterRank (gt : GroupTopology) (g : Z) : option Z :=
  m ← Array_at (groupmaster_lproc gt) g; Array_at (lproc_proc gt) m.
Definition GetGroupMasterGroup (gt : GroupTopology) (g : Z) : option Z :=
  Array_at (group_mgroup gt) g.
Definition GetGroupSize (gt : GroupTopology) (g : Z) : option Z :=
  Table_RowSize (group_lproc gt) g.
Definition GetGroup (gt : GroupTopology) (g : Z) : option (list Z) :=
  Table_GetRow (group_lproc gt) g.

(** Modelled from the spec: the canonical groups of a process.  Group 0 is
    the singleton of the local rank; the other groups are the supplied
    membership sets with identical sets merged. *)
Definition canonical_groups (me : Z) (sets : list (gset Z))
    : list (gset Z) :=
  {[me]} :: remove_dups (filter (λ s, s ≠ {[me]}) sets).

(** Modelled from the spec: the neighbor table.  Neighbor 0 is the local
    process, followed by the distinct remote ranks of the groups. *)
Definition neighbors (me : Z) (groups : list (gset Z)) : list Z :=
  me :: remove_dups (filter (λ r, r ≠ me) (mjoin (elements <$> groups))).

(** Modelled from the spec: [GroupTopology::Create], whose body is not part
    of the header.  The master of a group is its lowest participating rank;
    [group_mgroup] is the position of the group among the canonical groups
    of its master. *)
Definition Create (gt : GroupTopology) (groups : list (gset Z)) (mpitag : Z)
    : GroupTopology :=
  let me := MyRank gt in
  let gs := canonical_groups me groups in
  let nbrs := neighbors me gs in
  mkGroupTopology
    (MyComm gt)
    ((λ s, (λ r, index_of r nbrs) <$> elements s) <$> gs)
    ((λ s, index_of (lowest_rank s) nbrs) <$> gs)
    nbrs
    ((λ s, let master := lowest_rank s in
           index_of s (canonical_groups master (peer_groups master))) <$> gs).

End GroupTopology.

(** ** GroupCommunicator *)

Inductive Mode := byGroup | byNeighbor.

Record GroupCommunicator := mkGroupCommunicator {
  gtopo : GroupTopology;
  mode : Mode;
  group_ldof : Table;
  group_ltdof : Table;
  group_buf_size : Z;
  comm_lock : Z;   (* 0 - no lock, 1 - locked for Bcast, 2 - locked for Reduce *)
  num_requests : Z
}.

Definition set_comm_lock (gc : GroupCommunicator) (l : Z) : GroupCommunicator :=
  mkGroupCommunicator (gtopo gc) (mode gc) (group_ldof gc) (group_ltdof gc)
                      (group_buf_size gc) l (num_requests gc).

(** The fused wrappers of the header, over the split operations they call.
    [State] is the state the split operations act on (communicator, buffers,
    the arrays behind the [ldata] pointers); [ptr] is the type of [T *] and
    [OpFn] of the reduction function pointer. *)
Section Fused.
Context {State ptr OpFn : Type}.
Variable BcastBegin : ptr → Z → comp State unit.
Variable BcastEnd : ptr → Z → comp State unit.
Variable ReduceBegin : ptr → comp State unit.
Variable ReduceEnd : ptr → Z → OpFn → comp State unit.

Definition Bcast (ldata : ptr) (layout : Z) : comp State unit :=
  _ ← BcastBegin ldata layout;
  BcastEnd ldata layout.

(** [Bcast(T *ldata)] *)
Definition Bcast0 (ldata : ptr) : comp State unit := Bcast ldata 0.

Definition Reduce (ldata : ptr) (Op : OpFn) : comp State unit :=
  _ ← ReduceBegin ldata;
  ReduceEnd ldata 0 Op.

(** The wrappers as the specification words them: Begin, then End on the
    state Begin leaves, unless Begin fails. *)
Definition Begin_then_End (begin end_ : comp State unit) (s : State)
    : result (unit * State) :=
  match begin s with
  | Ok (_, s') => end_ s'
  | Fail e => Fail e
  end.

End Fused.

(** The exclusivity lock of the split operations. *)
Module LockProtocol.

Inductive kind := broadcast | reduction.

Global Instance kind_eq_dec : EqDecision kind.
Proof. solve_decision. Defined.

(** The lock token of an operation in flight. *)
Definition token (k : kind) : Z :=
  match k with broadcast => 1 | reduction => 2 end.

(** Modelled from the spec: the constructor, whose body is not part of the
    header, leaves the communicator idle. *)
Definition GroupCommunicator_new (gt : GroupTopology) (m : Mode)
    : GroupCommunicator :=
  mkGroupCommunicator gt m [] [] 0 0 0.

(** Modelled from the spec: the effect of a Begin on the lock token.  The
    bodies of the split operations are not part of the header; a Begin on a
    communicator that is not idle is a fatal usage error; otherwise the
    operation is in flight. *)
Definition Begin (k : kind) : comp GroupCommunicator unit := λ gc,
  if comm_lock gc =? 0 then Ok (tt, set_comm_lock gc (token k))
  else Fail (Abort ObjectInUse).

(** Modelled from the spec: an End finishes the operation of its own kind
    that is in flight. *)
Definition End (k : kind) : comp GroupCommunicator unit := λ gc,
  if comm_lock gc =? token k then Ok (tt, set_comm_lock gc 0)
  else Ok (tt, gc).

Definition BcastBegin (ldata : Z) (layout : Z) := Begin broadcast.
Definition BcastEnd (ldata : Z) (layout : Z) := End broadcast.
Definition ReduceBegin (ldata : Z) := Begin reduction.
Definition ReduceEnd (ldata : Z) (layout : Z) (Op : unit) := End reduction.

(** Calls of the split operations on one communicator. *)
Inductive op :=
  | OpBcastBegin (ldata layout : Z)
  | OpBcastEnd (ldata layout : Z)
  | OpReduceBegin (ldata : Z)
  | OpReduceEnd (ldata layout : Z).

Definition op_kind (o : op) : kind :=
  match o with
  | OpBcastBegin _ _ | OpBcastEnd _ _ => broadcast
  | OpReduceBegin _ | OpReduceEnd _ _ => reduction
  end.

Definition is_begin (o : op) : bool :=
  match o with
  | OpBcastBegin _ _ | OpReduceBegin _ => true
  | OpBcastEnd _ _ | OpReduceEnd _ _ => false
  end.

Definition call (o : op) : comp GroupCommunicator unit :=
  match o with
  | OpBcastBegin ldata layout => BcastBegin ldata layout
  | OpBcastEnd ldata layout => BcastEnd ldata layout
  | OpReduceBegin ldata => ReduceBegin ldata
  | OpReduceEnd ldata layout => ReduceEnd ldata layout tt
  end.

Fixpoint run (h : list op) : comp GroupCommunicator unit :=
  match h with
  | [] => mret tt
  | o :: h' => _ ← call o; run h'
  end.

(** After the calls [h], an operation of kind [k] is in flight when the
    most recent call of that kind is its Begin: its matching End has not
    been called yet. *)
Definition in_flight (k : kind) (h : list op) : Prop :=
  ∃ o, last (filter (λ o, op_kind o = k) h) = Some o ∧ is_begin o = true.

End LockProtocol.

(** ** Bulk helpers of VarMessage *)

(** [MPI_Wait] on a send request.  The null handle returns at once; a handle
    that is not of a posted send is an error.  Whether a posted send ever
    completes is decided by the peers (a matching receive, or buffering):
    [completes r] tells it for the send with handle [r].  The wait on a send
    that completes returns with the handle set to null; the wait on a send
    that does not complete never returns. *)
Definition MPI_Wait (completes : nat → bool) (request : MPI_Request)
    : mpi MPI_Request := λ w,
  match request with
  | None => Ok (MPI_REQUEST_NULL, w)
  | Some r =>
      if bool_decide (r ∈ post_request <$> outbox w)
      then if completes r then Ok (MPI_REQUEST_NULL, w) else Fail Blocked
      else Fail TransportError
  end.

(** The entries of a rank-to-message map in iteration order, from [begin()]
    to [end()]: ascending keys. *)
Definition key_le {V} (a b : Z * V) : Prop := a.1 <= b.1.

Global Instance key_le_dec {V} : RelDecision (@key_le V) :=
  λ a b, decide (a.1 <= b.1).

Definition map_entries {V} (m : gmap Z V) : list (Z * V) :=
  merge_sort key_le (map_to_list m).

(** The map after the values of the listed entries were written, first entry
    first. *)
Definition insert_entries {V} (l : list (Z * V)) (m : gmap Z V) : gmap Z V :=
  foldl (λ acc kv, <[kv.1 := kv.2]> acc) m l.

(** The request is the null handle or the handle of a posted send. *)
Definition request_posted (request : MPI_Request) (w : Proc) : Prop :=
  match request with
  | None => True
  | Some r => r ∈ post_request <$> outbox w
  end.

(** The request is the null handle or the handle of a posted send that
    completes: a wait on it returns. *)
Definition request_done (completes : nat → bool) (request : MPI_Request)
    (w : Proc) : Prop :=
  match request with
  | None => True
  | Some r => r ∈ post_request <$> outbox w ∧ completes r = true
  end.

(** The request is the handle of a send that does not complete. *)
Definition request_stuck (completes : nat → bool) (request : MPI_Request)
    : Prop :=
  match request with
  | None => False
  | Some r => completes r = false
  end.

Section VarMessage_bulk.
Context (Tag : Z).
Context {D : Type} `{!Codec D}.

(** The loop of [IsendAll] over the entries from the iterator on; [it.1] is
    [it->first] and [it.2] is [it->second]. *)
Fixpoint IsendAll_loop (its : list (Z * VarMessage D))
    (rank_msg : gmap Z (VarMessage D)) (comm : MPI_Comm)
    : mpi (gmap Z (VarMessage D)) :=
  match its with
  | [] => mret rank_msg
  | it :: its =>
      msg ← Isend Tag it.2 it.1 comm;
      IsendAll_loop its (<[it.1 := msg]> rank_msg) comm
  end.

Definition IsendAll (rank_msg : gmap Z (VarMessage D)) (comm : MPI_Comm)
    : mpi (gmap Z (VarMessage D)) :=
  IsendAll_loop (map_entries rank_msg) rank_msg comm.

(** The loop of [WaitAllSent]; [completes] is the parameter of [MPI_Wait]. *)
Fixpoint WaitAllSent_loop (completes : nat → bool)
    (its : list (Z * VarMessage D)) (rank_msg : gmap Z (VarMessage D))
    : mpi (gmap Z (VarMessage D)) :=
  match its with
  | [] => mret rank_msg
  | it :: its =>
      req ← MPI_Wait completes (send_request it.2);
      let msg := Clear (set_send_request it.2 req) in
      WaitAllSent_loop completes its (<[it.1 := msg]> rank_msg)
  end.

Definition WaitAllSent (completes : nat → bool)
    (rank_msg : gmap Z (VarMessage D)) : mpi (gmap Z (VarMessage D)) :=
  WaitAllSent_loop completes (map_entries rank_msg) rank_msg.

(** The send that entry [i] of [IsendAll] posts when the first request handle
    handed out is [r0]. *)
Definition posted_by (comm : MPI_Comm) (r0 : nat) (i : nat)
    (it : Z * VarMessage D) : Posted :=
  mkPosted comm it.1 Tag (data (Encode it.1 it.2)) (r0 + i).

(** The entry that [IsendAll] leaves for entry [i]. *)
Definition sent_by (r0 : nat) (i : nat) (it : Z * VarMessage D)
    : Z * VarMessage D :=
  (it.1, set_send_request (Encode it.1 it.2) (Some (r0 + i)%nat)).

(** The encoded payload of the entry fits the [int] count of [MPI_Isend]. *)
Definition payload_fits (it : Z * VarMessage D) : Prop :=
  Z.of_nat (length (data (Encode it.1 it.2))) <= INT_MAX.

(** The calls of [IsendAll] for the listed entries. *)
Definition isend_calls (its : list (Z * VarMessage D)) : list Call :=
  its ≫= λ it, [CallEncode it.1;
                 CallIsend it.1 (Z.of_nat (length (data (Encode it.1 it.2))))].

End VarMessage_bulk.

(** The message that a posted send becomes in the mailbox of its destination,
    [source] being the rank of the sender. *)
Definition arrive (source : Z) (p : Posted) : Envelope :=
  mkEnvelope (post_comm p) source (post_tag p) (post_payload p).

(** A derived message class that carries a byte string: [Encode] writes it to
    [data], [Decode] reads it back. *)
Global Instance bytes_codec : Codec (list byte) := {|
  Encode := λ _ m, mkVarMessage (derived m) (send_request m) (derived m);
  Decode := λ _ m, mkVarMessage (data m) (send_request m) (data m)
|}.

(** ** Sample inputs *)

Definition sample_envelope : Envelope :=
  mkEnvelope 0 1 7 ["001"%byte; "002"%byte].

Definition sample_proc : Proc := mkProc [sample_envelope] [] 0 [].

Definition empty_proc : Proc := mkProc [] [] 0 [].

(** Two messages of class 7 from rank 1, for a map that expects one message
    from rank 1 and one from rank 2. *)
Definition sample_proc2 : Proc :=
  mkProc [mkEnvelope 0 1 7 ["001"%byte]; mkEnvelope 0 1 7 ["002"%byte]] [] 0 [].

Definition sample_map : gmap Z (VarMessage unit) :=
  <[1 := VarMessage_new]> (<[2 := VarMessage_new]> ∅).

(** Every posted send completes. *)
Definition all_complete : nat → bool := λ _, true.

(** Only the send with handle 0 completes. *)
Definition first_completes (r : nat) : bool := bool_decide (r = 0%nat).

(** A message of the byte-string class that carries three bytes, holds stale
    [data] and has a send pending. *)
Definition pending_bytes_message : VarMessage (list byte) :=
  mkVarMessage ["001"; "002"]%byte (Some 4%nat) ["003"; "004"; "005"]%byte.

(** The same message with no send pending. *)
Definition bytes_message : VarMessage (list byte) :=
  mkVarMessage ["001"; "002"]%byte MPI_REQUEST_NULL ["003"; "004"; "005"]%byte.

(** The mailbox of rank 1 after rank 3 sent it [bytes_message] from
    [empty_proc], behind a message of another class. *)
Definition sample_arrival : Proc :=
  mkProc [mkEnvelope 0 3 8 ["009"%byte];
          arrive 3 (mkPosted 0 1 7 ["003"; "004"; "005"]%byte 0)] [] 0 [].

Definition sample_topology : GroupTopology :=
  mkGroupTopology 0 [[0]; [0; 1]; [1; 0; 2]] [0; 0; 1] [3; 1; 5] [0; 1; 4].

(** * Properties of the mailbox model *)

Lemma int_of_size_t_small (n : nat) :
  Z.of_nat n <= INT_MAX → int_of_size_t n = Z.of_nat n.
Proof.
  unfold INT_MAX, int_of_size_t. intros Hn.
  rewrite Z.mod_small; lia.
Qed.

Lemma extract_Some p l e r :
  extract p l = Some (e, r) ↔
  ∃ l1 l2, l = l1 ++ e :: l2 ∧ r = l1 ++ l2 ∧ p e = true
           ∧ Forall (λ x, p x = false) l1.
Proof.
  revert e r. induction l as [|x l IH]; intros e r; simpl.
  - split; [done|]. intros (l1 & l2 & Hl & _). by destruct l1.
  - destruct (p x) eqn:Hx.
    + split.
      * intros [= <- <-]. exists [], l. by repeat split.
      * intros (l1 & l2 & Hl & -> & He & Hall).
        destruct l1 as [|y l1]; simpl in *.
        -- by injection Hl as -> ->.
        -- injection Hl as -> ->. apply Forall_cons in Hall as [Hy _]. congruence.
    + destruct (extract p l) as [[x' r']|] eqn:Hex.
      * split.
        -- intros [= <- <-]. destruct (proj1 (IH x' r') eq_refl)
             as (l1 & l2 & -> & -> & He & Hall).
           exists (x :: l1), l2. repeat split; auto.
        -- intros (l1 & l2 & Hl & -> & He & Hall).
           destruct l1 as [|y l1]; simpl in *.
           ++ injection Hl as -> ->. congruence.
           ++ injection Hl as -> ->. apply Forall_cons in Hall as [_ Hall].
              assert (Some (x', r') = Some (e, l1 ++ l2)) as [= -> ->]; [|done].
              apply IH. by exists l1, l2.
      * split; [done|]. intros (l1 & l2 & Hl & -> & He & Hall).
        destruct l1 as [|y l1]; simpl in *.
        -- injection Hl as -> ->. congruence.
        -- injection Hl as -> ->. apply Forall_cons in Hall as [_ Hall].
           assert (None = Some (e, l1 ++ l2)) as [=].
           apply IH. by exists l1, l2.
Qed.

Lemma extract_None p l :
  extract p l = None ↔ Forall (λ x, p x = false) l.
Proof.
  induction l as [|x l IH]; simpl.
  - split; [constructor|done].
  - destruct (p x) eqn:Hx.
    + split; [done|]. intros [Hx' _]%Forall_cons. congruence.
    + destruct (extract p l) as [[x' r']|].
      * split; [done|]. intros [_ Hl]%Forall_cons. by apply IH in Hl.
      * split; [|done]. intros _. constructor; [done|]. by apply IH.
Qed.

(** The message found by a probe from any source is the one a receive from
    its source takes. *)
Lemma extract_any_source comm tag l e r :
  extract (matches comm None tag) l = Some (e, r) →
  extract (matches comm (Some (env_source e)) tag) l = Some (e, r).
Proof.
  revert e r. induction l as [|x l IH]; intros e r; simpl; [done|].
  destruct (matches comm None tag x) eqn:Hx.
  - intros [= <- <-]. unfold matches in *.
    rewrite (bool_decide_eq_true_2 (env_source x = env_source x)) by done.
    by rewrite Hx.
  - assert (matches comm (Some (env_source e)) tag x = false) as ->.
    { unfold matches in *. destruct (bool_decide (env_comm x = comm)),
        (bool_decide (env_tag x = tag)), (bool_decide (env_source x = env_source e));
        simpl in *; congruence. }
    destruct (extract (matches comm None tag) l) as [[x' r']|]; [|done].
    intros [= <- <-]. by rewrite (IH x' r').
Qed.

Lemma extract_filter p l e r :
  extract p l = Some (e, r) →
  filter (λ x, p x = true) l = e :: filter (λ x, p x = true) r
  ∧ filter (λ x, p x ≠ true) l = filter (λ x, p x ≠ true) r.
Proof.
  intros (l1 & l2 & -> & -> & He & Hall)%extract_Some.
  rewrite !filter_app, !filter_cons.
  destruct (decide (p e = true)); [|done].
  destruct (decide (p e ≠ true)); [done|].
  split; [|done].
  assert (filter (λ x, p x = true) l1 = []) as ->; [|done].
  induction Hall as [|y l1 Hy _ IH]; [done|].
  rewrite filter_cons. destruct (decide (p y = true)); [congruence|done].
Qed.

Lemma filter_extract p l e tl :
  filter (λ x, p x = true) l = e :: tl → ∃ r, extract p l = Some (e, r).
Proof.
  intros Hf. destruct (extract p l) as [[x r]|] eqn:Hex.
  - apply extract_filter in Hex as [Hex _]. rewrite Hex in Hf.
    injection Hf as -> _. by exists r.
  - apply extract_None in Hex. exfalso.
    assert (e ∈ filter (λ x, p x = true) l) as Hin by (rewrite Hf; left).
    apply list_elem_of_filter in Hin as [He Hin].
    rewrite Forall_forall in Hex. specialize (Hex e Hin). congruence.
Qed.

(** * Properties of VarMessage *)

Ltac mpi_unfold :=
  unfold MFEM_ASSERT, MFEM_VERIFY, string_resize, MPI_Get_count, log, raise;
  unfold mbind, comp_bind, mret, comp_ret; cbn beta iota.

Section VarMessage_facts.
Context (Tag : Z) {D : Type} `{!Codec D} `{!Inhabited D}.
Implicit Types (this : VarMessage D) (w : Proc) (e : Envelope).

Lemma Probe_found rank size comm w e r :
  extract (matches comm None Tag) (inbox w) = Some (e, r) →
  Probe Tag rank size comm w
  = Ok ((env_source e, Z.of_nat (length (env_payload e))),
        mkProc (inbox w) (outbox w) (next_request w) (calls w ++ [CallProbe])).
Proof.
  intros Hex. unfold Probe, MPI_Probe. mpi_unfold. by rewrite Hex.
Qed.

Lemma Probe_blocked rank size comm w :
  extract (matches comm None Tag) (inbox w) = None →
  Probe Tag rank size comm w = Fail Blocked.
Proof.
  intros Hex. unfold Probe, MPI_Probe. mpi_unfold. by rewrite Hex.
Qed.

(** A receive whose [size] is the length of the matched message. *)
Lemma Recv_exact dbg this rank size comm w e rest :
  extract (matches comm (Some rank) Tag) (inbox w) = Some (e, rest) →
  size = Z.of_nat (length (env_payload e)) →
  Recv Tag dbg this rank size comm w
  = Ok (Decode rank (set_data this (env_payload e)),
        mkProc rest (outbox w) (next_request w)
               (calls w ++ [CallRecv rank size; CallDecode rank])).
Proof.
  intros Hex ->. unfold Recv, MPI_Recv. mpi_unfold.
  destruct (Z.leb_spec 0 (Z.of_nat (length (env_payload e)))); [|lia].
  destruct (Z.ltb_spec (Z.of_nat (length (env_payload e))) 0); [lia|].
  rewrite Hex, Z.ltb_irrefl, Z.eqb_refl. simpl.
  rewrite drop_ge, app_nil_r by (rewrite length_resize; lia).
  destruct dbg; simpl; by rewrite <- app_assoc.
Qed.

(** A receive of a message shorter than [size]. *)
Lemma Recv_short dbg this rank size comm w e rest :
  extract (matches comm (Some rank) Tag) (inbox w) = Some (e, rest) →
  Z.of_nat (length (env_payload e)) < size →
  Recv Tag dbg this rank size comm w
  = if dbg then Fail (Abort CountMismatch)
    else Ok (Decode rank
               (set_data this
                  (env_payload e
                   ++ drop (length (env_payload e))
                        (resize (Z.to_nat size) x00 (data this)))),
             mkProc rest (outbox w) (next_request w)
                    (calls w ++ [CallRecv rank size; CallDecode rank])).
Proof.
  intros Hex Hlt. unfold Recv, MPI_Recv. mpi_unfold.
  destruct (Z.leb_spec 0 size); [|lia].
  destruct (Z.ltb_spec size 0); [lia|].
  rewrite Hex.
  destruct (Z.ltb_spec size (Z.of_nat (length (env_payload e)))); [lia|].
  simpl. destruct (Z.eqb_spec (Z.of_nat (length (env_payload e))) size); [lia|].
  destruct dbg; [done|]. simpl. by rewrite <- app_assoc.
Qed.

(** A receive of a message longer than [size]. *)
Lemma Recv_long dbg this rank size comm w e rest :
  extract (matches comm (Some rank) Tag) (inbox w) = Some (e, rest) →
  0 <= size < Z.of_nat (length (env_payload e)) →
  Recv Tag dbg this rank size comm w = Fail TransportError.
Proof.
  intros Hex Hlt. unfold Recv, MPI_Recv. mpi_unfold.
  destruct (Z.leb_spec 0 size); [|lia].
  destruct (Z.ltb_spec size 0); [lia|].
  rewrite Hex.
  by destruct (Z.ltb_spec size (Z.of_nat (length (env_payload e)))); [|lia].
Qed.

Lemma Recv_negative dbg this rank size comm w :
  size < 0 → Recv Tag dbg this rank size comm w = Fail (Abort NegativeSize).
Proof.
  intros Hlt. unfold Recv. mpi_unfold.
  by destruct (Z.leb_spec 0 size); [lia|].
Qed.

Lemma Recv_blocked dbg this rank size comm w :
  0 <= size →
  extract (matches comm (Some rank) Tag) (inbox w) = None →
  Recv Tag dbg this rank size comm w = Fail Blocked.
Proof.
  intros Hle Hex. unfold Recv, MPI_Recv. mpi_unfold.
  destruct (Z.leb_spec 0 size); [|lia].
  destruct (Z.ltb_spec size 0); [lia|].
  by rewrite Hex.
Qed.

End VarMessage_facts.

(** ** Isend *)

Section Isend_facts.
Context (Tag : Z) {D : Type} `{!Codec D}.
Implicit Types (this : VarMessage D) (w : Proc).

Lemma Isend_ok this rank comm w :
  Z.of_nat (length (data (Encode rank this))) <= INT_MAX →
  Isend Tag this rank comm w
  = Ok (set_send_request (Encode rank this) (Some (next_request w)),
        mkProc (inbox w)
               (outbox w ++ [mkPosted comm rank Tag (data (Encode rank this))
                                      (next_request w)])
               (S (next_request w))
               (calls w ++ [CallEncode rank;
                            CallIsend rank
                              (Z.of_nat (length (data (Encode rank this))))])).
Proof.
  intros Hlen. unfold Isend, MPI_Isend. mpi_unfold.
  rewrite int_of_size_t_small by done.
  destruct (Z.ltb_spec (Z.of_nat (length (data (Encode rank this)))) 0); [lia|].
  simpl. rewrite Nat2Z.id, firstn_all, <- app_assoc. done.
Qed.

(** C2 (as the code has it): [Isend] makes no check for a pending send.
    Whatever [send_request] holds and however long the payload is, it never
    ends in a failed assertion.  When the encoded payload has at most
    [INT_MAX] bytes, it calls [Encode], posts the send of the encoded payload
    and overwrites [send_request] with the new request, whatever
    [send_request] held before. *)
Theorem Isend_no_pending_check this rank comm w :
  ¬ fatal (Isend Tag this rank comm w)
  ∧ (Z.of_nat (length (data (Encode rank this))) <= INT_MAX →
     Isend Tag this rank comm w
     = Ok (set_send_request (Encode rank this) (Some (next_request w)),
           mkProc (inbox w)
                  (outbox w ++ [mkPosted comm rank Tag (data (Encode rank this))
                                         (next_request w)])
                  (S (next_request w))
                  (calls w ++ [CallEncode rank;
                               CallIsend rank
                                 (Z.of_nat (length (data (Encode rank this))))]))).
Proof.
  split.
  - unfold Isend, MPI_Isend. mpi_unfold.
    destruct (_ <? 0); intros [a Ha]; discriminate.
  - intros Hlen. by apply Isend_ok.
Qed.

(** C7: a message whose send is pending cannot be destroyed or copied: after
    a successful [Isend] (and, generally, whenever [send_request] is not
    [MPI_REQUEST_NULL]) the destructor and the copy constructor end in their
    assertion. *)
Theorem pending_send_destroy_copy_fatal this rank comm w this' w' w'' :
  Isend Tag this rank comm w = Ok (this', w') →
  send_request this' ≠ MPI_REQUEST_NULL
  ∧ VarMessage_destroy this' w'' = Fail (Abort PendingSendOnDestroy)
  ∧ VarMessage_copy this' w'' = Fail (Abort PendingSendOnCopy)
  ∧ ∀ (m : VarMessage D), send_request m ≠ MPI_REQUEST_NULL →
      VarMessage_destroy m w'' = Fail (Abort PendingSendOnDestroy)
      ∧ VarMessage_copy m w'' = Fail (Abort PendingSendOnCopy).
Proof.
  intros Hsend.
  assert (∀ m : VarMessage D, send_request m ≠ MPI_REQUEST_NULL →
            VarMessage_destroy m w'' = Fail (Abort PendingSendOnDestroy)
            ∧ VarMessage_copy m w'' = Fail (Abort PendingSendOnCopy)) as Hgen.
  { intros m Hm. unfold VarMessage_destroy, VarMessage_copy. mpi_unfold.
    simpl. by rewrite bool_decide_eq_false_2. }
  assert (send_request this' ≠ MPI_REQUEST_NULL) as Hreq.
  { revert Hsend. unfold Isend, MPI_Isend. mpi_unfold.
    destruct (_ <? 0); [done|]. by intros [= <- _]. }
  destruct (Hgen this' Hreq) as [Hd Hc]. by repeat (split; [done|]).
Qed.

(** Once [Clear] has run, the message can be destroyed and copied. *)
Lemma Clear_allows_destroy_copy this w :
  VarMessage_destroy (Clear this) w = Ok (tt, w)
  ∧ VarMessage_copy (Clear this) w = Ok (Clear this, w).
Proof. done. Qed.

End Isend_facts.

(** A second [Isend] on a message whose first send is still pending goes
    through. *)
Lemma Isend_twice_not_fatal :
  ∃ (m1 m2 : VarMessage unit) (w1 w2 : Proc),
    Isend 7 (VarMessage_new (D:=unit)) 1 0 empty_proc = Ok (m1, w1)
    ∧ send_request m1 ≠ MPI_REQUEST_NULL
    ∧ Isend 7 m1 1 0 w1 = Ok (m2, w2)
    ∧ ¬ fatal (Isend 7 m1 1 0 w1).
Proof.
  exists (mkVarMessage [] (Some 0%nat) tt), (mkVarMessage [] (Some 1%nat) tt),
    (mkProc [] [mkPosted 0 1 7 [] 0] 1 [CallEncode 1; CallIsend 1 0]),
    (mkProc [] [mkPosted 0 1 7 [] 0; mkPosted 0 1 7 [] 1] 2
            [CallEncode 1; CallIsend 1 0; CallEncode 1; CallIsend 1 0]).
  split; [reflexivity|]. split; [done|].
  split; [reflexivity|]. intros [a Ha]. discriminate.
Qed.

Lemma Isend_no_pending_check_witness :
  ¬ fatal (Isend 7 pending_bytes_message 1 0 empty_proc)
  ∧ Isend 7 pending_bytes_message 1 0 empty_proc
    = Ok (mkVarMessage ["003"; "004"; "005"]%byte (Some 0%nat)
                       ["003"; "004"; "005"]%byte,
          mkProc [] [mkPosted 0 1 7 ["003"; "004"; "005"]%byte 0] 1
                 [CallEncode 1; CallIsend 1 3]).
Proof.
  assert (Z.of_nat (length (data (Encode 1 pending_bytes_message))) <= INT_MAX)
    as Hlen by (vm_compute; discriminate).
  split.
  - exact (proj1 (Isend_no_pending_check 7 pending_bytes_message 1 0
                    empty_proc)).
  - exact (proj2 (Isend_no_pending_check 7 pending_bytes_message 1 0
                    empty_proc) Hlen).
Defined.

Lemma pending_send_destroy_copy_fatal_witness :
  VarMessage_destroy (mkVarMessage [] (Some 0%nat) tt) empty_proc
  = Fail (Abort PendingSendOnDestroy).
Proof.
  assert (Isend 7 (VarMessage_new (D:=unit)) 1 0 empty_proc
          = Ok (mkVarMessage [] (Some 0%nat) tt,
                mkProc [] [mkPosted 0 1 7 [] 0] 1 [CallEncode 1; CallIsend 1 0]))
    as Hsend by reflexivity.
  exact (proj1 (proj2 (pending_send_destroy_copy_fatal 7 _ 1 0 empty_proc _ _
                         empty_proc Hsend))).
Defined.

(** ** Probing and receiving *)

Lemma pending_nil comm source tag w :
  pending comm source tag w = [] →
  extract (matches comm source tag) (inbox w) = None.
Proof.
  unfold pending. intros Hnil.
  destruct (extract _ (inbox w)) as [[e r]|] eqn:Hex; [|done].
  apply extract_filter in Hex as [Hex _]. congruence.
Qed.

Lemma pending_cons comm source tag w e tl :
  pending comm source tag w = e :: tl →
  ∃ r, extract (matches comm source tag) (inbox w) = Some (e, r)
       ∧ filter (λ x, matches comm source tag x = true) r = tl
       ∧ filter (λ x, matches comm source tag x ≠ true) r
         = others comm source tag w.
Proof.
  unfold pending, others. intros Hp.
  destruct (filter_extract _ _ _ _ Hp) as [r Hex]. exists r.
  split; [done|]. apply extract_filter in Hex as [Hex1 Hex2].
  split; [congruence|done].
Qed.

Section Probe_facts.
Context (Tag : Z) {D : Type}.
Implicit Types (this : VarMessage D) (w : Proc).

(** C8: [IProbe] always returns.  With no message of the class pending it
    returns false and hands back [rank] and [size] as they were; otherwise it
    returns true with the source and the byte length of the earliest pending
    message of the class.  The mailbox is left as it was. *)
Theorem IProbe_never_blocks rank size comm w :
  IProbe Tag rank size comm w
  = Ok (match pending comm None Tag w with
        | [] => (false, rank, size)
        | e :: _ => (true, env_source e, Z.of_nat (length (env_payload e)))
        end,
        mkProc (inbox w) (outbox w) (next_request w)
               (calls w ++ [CallIprobe])).
Proof.
  unfold IProbe, MPI_Iprobe. mpi_unfold.
  destruct (pending comm None Tag w) as [|e tl] eqn:Hp.
  - by rewrite (pending_nil _ _ _ _ Hp).
  - destruct (pending_cons _ _ _ _ _ _ Hp) as (r & -> & _). done.
Qed.

(** C10: [RecvDrop] returns exactly when a message from [rank] is there and
    fits in [size] bytes.  It takes that message out of the mailbox, leaves
    [data] empty and the rest of the object as it was, and its only call is
    the receive: the [Decode] hook is not invoked. *)
Theorem RecvDrop_discards this rank size comm w this' w' :
  RecvDrop Tag this rank size comm w = Ok (this', w')
  ↔ ∃ e rest,
      extract (matches comm (Some rank) Tag) (inbox w) = Some (e, rest)
      ∧ Z.of_nat (length (env_payload e)) <= size
      ∧ this' = mkVarMessage [] (send_request this) (derived this)
      ∧ length (data this') = 0%nat
      ∧ w' = mkProc rest (outbox w) (next_request w)
                    (calls w ++ [CallRecv rank size]).
Proof.
  unfold RecvDrop, MPI_Recv. mpi_unfold.
  destruct (Z.ltb_spec size 0) as [Hneg|Hpos]; simpl.
  { split; [done|]. intros (e & rest & _ & Hle & _). lia. }
  destruct (extract _ (inbox w)) as [[e rest]|] eqn:Hex.
  - destruct (Z.ltb_spec size (Z.of_nat (length (env_payload e)))) as [Hlt|Hle].
    + split; [done|]. intros (e' & rest' & [= <- <-] & Hle & _). lia.
    + simpl. unfold set_data. change (Z.to_nat 0) with 0%nat.
      rewrite resize_0. split.
      * intros [= <- <-]. by exists e, rest.
      * by intros (e' & rest' & [= <- <-] & _ & -> & _ & ->).
  - split; [done|]. by intros (e' & rest' & [=] & _).
Qed.

End Probe_facts.

Section Recv_facts.
Context (Tag : Z) {D : Type} `{!Codec D} `{!Inhabited D}.
Implicit Types (this : VarMessage D) (w : Proc) (e : Envelope).
Implicit Types (rank_msg : gmap Z (VarMessage D)).

(** C4 (as the code has it): once a message from [rank] is there, [Recv]
    posts a receive of [size] bytes.  When the message has exactly [size]
    bytes, they become [data] and [Decode] runs, in every build.  A longer
    message is a truncation error of the transport.  A shorter message ends
    in the count assertion when [MFEM_DEBUG] is defined; without
    [MFEM_DEBUG] the count is not looked at and [Decode] runs on the
    partly filled buffer. *)
Theorem Recv_count_checked_in_debug MFEM_DEBUG this rank size comm w e rest :
  extract (matches comm (Some rank) Tag) (inbox w) = Some (e, rest) →
  0 <= size →
  let count := Z.of_nat (length (env_payload e)) in
  (count = size →
     Recv Tag MFEM_DEBUG this rank size comm w
     = Ok (Decode rank (set_data this (env_payload e)),
           mkProc rest (outbox w) (next_request w)
                  (calls w ++ [CallRecv rank size; CallDecode rank])))
  ∧ (size < count →
       Recv Tag MFEM_DEBUG this rank size comm w = Fail TransportError)
  ∧ (count < size →
       Recv Tag true this rank size comm w = Fail (Abort CountMismatch)
       ∧ Recv Tag false this rank size comm w
         = Ok (Decode rank
                 (set_data this
                    (env_payload e
                     ++ drop (length (env_payload e))
                          (resize (Z.to_nat size) x00 (data this)))),
               mkProc rest (outbox w) (next_request w)
                      (calls w ++ [CallRecv rank size; CallDecode rank]))).
Proof.
  intros Hex Hsize count. subst count. split; [|split].
  - intros Heq. by apply Recv_exact.
  - intros Hlt. by apply (Recv_long _ _ _ _ _ _ _ e rest).
  - intros Hlt. split.
    + by rewrite (Recv_short _ _ _ _ _ _ _ e rest).
    + by rewrite (Recv_short _ _ _ _ _ _ _ e rest).
Qed.

(** A receive that follows a probe, with the rank and size the probe
    returned, gets the probed message. *)
Lemma Probe_then_Recv dbg this comm w rank size w1 :
  Probe Tag 0 0 comm w = Ok ((rank, size), w1) →
  ∃ e rest,
    extract (matches comm None Tag) (inbox w) = Some (e, rest)
    ∧ rank = env_source e
    ∧ size = Z.of_nat (length (env_payload e))
    ∧ Recv Tag dbg this rank size comm w1
      = Ok (Decode rank (set_data this (env_payload e)),
            mkProc rest (outbox w) (next_request w)
                   (calls w ++ [CallProbe; CallRecv rank size; CallDecode rank])).
Proof.
  destruct (extract (matches comm None Tag) (inbox w)) as [[e rest]|] eqn:Hex.
  - rewrite (Probe_found _ _ _ _ _ e rest Hex). intros [= <- <- <-].
    exists e, rest. repeat split; try done.
    rewrite (Recv_exact _ _ _ _ _ _ _ e rest);
      [|by apply extract_any_source|done].
    simpl. by rewrite <- app_assoc.
  - by rewrite Probe_blocked.
Qed.

(** One iteration of the loop of [RecvAll]. *)
Lemma RecvAll_loop_step dbg n rank_msg comm w e r :
  extract (matches comm None Tag) (inbox w) = Some (e, r) →
  RecvAll_loop Tag dbg (S n) rank_msg comm w
  = if bool_decide (env_source e ∈ dom rank_msg)
    then RecvAll_loop Tag dbg n (deliver rank_msg e) comm
           (mkProc r (outbox w) (next_request w)
                   (calls w ++ recv_calls [e]))
    else Fail (Abort UnexpectedMessage).
Proof.
  intros Hex.
  change (RecvAll_loop Tag dbg (S n) rank_msg comm w)
    with (('(rank, size) ← Probe Tag 0 0 comm;
           _ ← MFEM_ASSERT (bool_decide (is_Some (rank_msg !! rank)))
                           UnexpectedMessage;
           msg ← Recv Tag dbg (map_at rank_msg rank) rank size comm;
           RecvAll_loop Tag dbg n (<[rank := msg]> rank_msg) comm) w).
  unfold mbind at 1. unfold comp_bind at 1.
  rewrite (Probe_found _ _ _ _ _ e r Hex). cbn beta iota.
  unfold mbind at 1. unfold comp_bind at 1. unfold MFEM_ASSERT.
  rewrite (bool_decide_ext _ (env_source e ∈ dom rank_msg))
    by (symmetry; apply elem_of_dom).
  destruct (bool_decide (env_source e ∈ dom rank_msg)); [|done].
  unfold mbind at 1. unfold comp_bind at 1.
  rewrite (Recv_exact _ _ _ _ _ _ _ e r); [|by apply extract_any_source|done].
  cbn beta iota. unfold deliver, recv_calls. simpl.
  by rewrite <- app_assoc.
Qed.

Lemma dom_deliver rank_msg e :
  env_source e ∈ dom rank_msg → dom (deliver rank_msg e) = dom rank_msg.
Proof.
  intros Hin. unfold deliver. rewrite dom_insert_L.
  apply set_eq. intros x. rewrite elem_of_union, elem_of_singleton.
  split; [intros [->|Hx]; done | by right].
Qed.

Lemma recv_calls_cons e es :
  recv_calls (e :: es) = recv_calls [e] ++ recv_calls es.
Proof. done. Qed.

(** Enough expected messages: the loop receives the first [n] of them. *)
Lemma RecvAll_loop_ok dbg comm n : ∀ rank_msg w,
  (n ≤ length (pending comm None Tag w))%nat →
  Forall (λ e, env_source e ∈ dom rank_msg)
         (take n (pending comm None Tag w)) →
  ∃ w', RecvAll_loop Tag dbg n rank_msg comm w
        = Ok (foldl deliver rank_msg (take n (pending comm None Tag w)), w')
      ∧ calls w' = calls w ++ recv_calls (take n (pending comm None Tag w))
      ∧ pending comm None Tag w' = drop n (pending comm None Tag w)
      ∧ others comm None Tag w' = others comm None Tag w
      ∧ outbox w' = outbox w.
Proof.
  induction n as [|n IH]; intros rank_msg w Hlen Hall.
  - exists w. simpl. rewrite app_nil_r, drop_0. by repeat split.
  - destruct (pending comm None Tag w) as [|e tl] eqn:Hp; simpl in Hlen; [lia|].
    destruct (pending_cons _ _ _ _ _ _ Hp) as (r & Hex & Htl & Hoth).
    simpl in Hall. apply Forall_cons in Hall as [He Hall].
    rewrite (RecvAll_loop_step _ _ _ _ _ e r Hex).
    rewrite bool_decide_eq_true_2 by done.
    set (w1 := mkProc r (outbox w) (next_request w) (calls w ++ recv_calls [e])).
    assert (pending comm None Tag w1 = tl) as Hp1 by done.
    destruct (IH (deliver rank_msg e) w1) as (w' & Hrun & Hcalls & Hpend & Ho & Hout).
    { rewrite Hp1. lia. }
    { rewrite Hp1, dom_deliver by done. done. }
    exists w'. rewrite Hp1 in *. repeat split; try done.
    + rewrite Hcalls, firstn_cons, recv_calls_cons, app_assoc. done.
    + by rewrite Ho.
Qed.

(** A message from a rank that is not a key ends the loop in the
    assertion. *)
Lemma RecvAll_loop_unexpected dbg comm n : ∀ rank_msg w k e,
  (k < n)%nat →
  pending comm None Tag w !! k = Some e →
  Forall (λ e, env_source e ∈ dom rank_msg)
         (take k (pending comm None Tag w)) →
  env_source e ∉ dom rank_msg →
  RecvAll_loop Tag dbg n rank_msg comm w = Fail (Abort UnexpectedMessage).
Proof.
  induction n as [|n IH]; intros rank_msg w k e Hk Hlook Hall Hnot; [lia|].
  destruct (pending comm None Tag w) as [|e0 tl] eqn:Hp; [done|].
  destruct (pending_cons _ _ _ _ _ _ Hp) as (r & Hex & Htl & Hoth).
  rewrite (RecvAll_loop_step _ _ _ _ _ e0 r Hex).
  destruct k as [|k]; simpl in *.
  - injection Hlook as ->. by rewrite bool_decide_eq_false_2.
  - apply Forall_cons in Hall as [He0 Hall].
    rewrite bool_decide_eq_true_2 by done.
    apply (IH _ _ k e); [lia| | |].
    + unfold pending. simpl. by rewrite Htl.
    + unfold pending. simpl. rewrite Htl, dom_deliver by done. done.
    + by rewrite dom_deliver.
Qed.

(** Fewer expected messages than keys: the loop waits for ever. *)
Lemma RecvAll_loop_blocked dbg comm n : ∀ rank_msg w,
  (length (pending comm None Tag w) < n)%nat →
  Forall (λ e, env_source e ∈ dom rank_msg) (pending comm None Tag w) →
  RecvAll_loop Tag dbg n rank_msg comm w = Fail Blocked.
Proof.
  induction n as [|n IH]; intros rank_msg w Hlen Hall; [lia|].
  destruct (pending comm None Tag w) as [|e tl] eqn:Hp.
  - simpl. unfold mbind at 1. unfold comp_bind at 1.
    by rewrite Probe_blocked by (by apply pending_nil).
  - destruct (pending_cons _ _ _ _ _ _ Hp) as (r & Hex & Htl & Hoth).
    apply Forall_cons in Hall as [He Hall]. simpl in Hlen.
    rewrite (RecvAll_loop_step _ _ _ _ _ e r Hex).
    rewrite bool_decide_eq_true_2 by done.
    apply IH.
    + unfold pending. simpl. rewrite Htl. lia.
    + unfold pending. simpl. rewrite Htl, dom_deliver by done. done.
Qed.

(** C6: [RecvAll] on a map with [n] keys runs its loop body [n] times.  When
    the first [n] pending messages of the class all come from keys of the
    map, it returns after exactly [n] Probe+Recv iterations, having taken
    those [n] messages and no other; nothing requires their sources to be
    distinct, so a second message from one key is received in place of the
    message of another.  A message from a rank that is not a key ends the
    call in the assertion.  With fewer than [n] messages the call does not
    return. *)
Theorem RecvAll_receives_map_size_messages dbg rank_msg comm w :
  Z.of_nat (size rank_msg) <= INT_MAX →
  let n := size rank_msg in
  let msgs := pending comm None Tag w in
  ((n ≤ length msgs)%nat →
   Forall (λ e, env_source e ∈ dom rank_msg) (take n msgs) →
   ∃ w', RecvAll Tag dbg rank_msg comm w
         = Ok (foldl deliver rank_msg (take n msgs), w')
       ∧ calls w' = calls w ++ recv_calls (take n msgs)
       ∧ length (filter (λ c, c = CallProbe) (recv_calls (take n msgs))) = n
       ∧ pending comm None Tag w' = drop n msgs
       ∧ others comm None Tag w' = others comm None Tag w)
  ∧ (∀ k e, (k < n)%nat → msgs !! k = Some e →
       Forall (λ e, env_source e ∈ dom rank_msg) (take k msgs) →
       env_source e ∉ dom rank_msg →
       RecvAll Tag dbg rank_msg comm w = Fail (Abort UnexpectedMessage))
  ∧ ((length msgs < n)%nat →
     Forall (λ e, env_source e ∈ dom rank_msg) msgs →
     RecvAll Tag dbg rank_msg comm w = Fail Blocked).
Proof.
  intros Hsize n msgs. unfold RecvAll.
  rewrite int_of_size_t_small, Nat2Z.id by done. fold n.
  split; [|split].
  - intros Hlen Hall.
    destruct (RecvAll_loop_ok dbg comm n rank_msg w Hlen Hall)
      as (w' & Hrun & Hcalls & Hpend & Hoth & _).
    exists w'. repeat split; try done.
    assert (∀ es, length (filter (λ c, c = CallProbe) (recv_calls es))
                  = length es) as Hcount.
    { induction es as [|x es IHes]; [done|].
      rewrite recv_calls_cons, filter_app, length_app, IHes. done. }
    rewrite Hcount, length_take. fold msgs. lia.
  - intros k e Hk Hlook Hall Hnot.
    by apply (RecvAll_loop_unexpected dbg comm n rank_msg w k e).
  - intros Hlen Hall. by apply RecvAll_loop_blocked.
Qed.

End Recv_facts.

(** Without [MFEM_DEBUG], a 2-byte message received with [size] 5 is
    accepted. *)
Lemma Recv_count_mismatch_accepted :
  extract (matches 0 (Some 1) 7) (inbox sample_proc) = Some (sample_envelope, [])
  ∧ Z.of_nat (length (env_payload sample_envelope)) ≠ 5
  ∧ Recv 7 false (VarMessage_new (D:=unit)) 1 5 0 sample_proc
    = Ok (mkVarMessage ["001"; "002"; "000"; "000"; "000"]%byte None tt,
          mkProc [] [] 0 [CallRecv 1 5; CallDecode 1])
  ∧ ¬ fatal (Recv 7 false (VarMessage_new (D:=unit)) 1 5 0 sample_proc).
Proof.
  split; [reflexivity|]. split; [done|]. split; [reflexivity|].
  intros [a Ha]. discriminate.
Qed.

Lemma Recv_count_checked_in_debug_witness :
  Recv 7 true (VarMessage_new (D:=unit)) 1 5 0 sample_proc
  = Fail (Abort CountMismatch).
Proof.
  assert (extract (matches 0 (Some 1) 7) (inbox sample_proc)
          = Some (sample_envelope, [])) as Hex by reflexivity.
  assert (0 <= 5) as Hsize by lia.
  assert (Z.of_nat (length (env_payload sample_envelope)) < 5) as Hlt
    by (vm_compute; reflexivity).
  exact (proj1 (proj2 (proj2 (Recv_count_checked_in_debug 7 true
           (VarMessage_new (D:=unit)) 1 5 0 sample_proc sample_envelope []
           Hex Hsize)) Hlt)).
Defined.

(** Both messages from rank 1 are received; the entry of rank 2 is left as it
    was. *)
Lemma RecvAll_receives_map_size_messages_witness :
  ∃ w', RecvAll 7 false sample_map 0 sample_proc2
        = Ok (foldl deliver sample_map (take 2 (pending 0 None 7 sample_proc2)), w')
      ∧ calls w' = calls sample_proc2
                   ++ recv_calls (take 2 (pending 0 None 7 sample_proc2))
      ∧ length (filter (λ c, c = CallProbe)
                  (recv_calls (take 2 (pending 0 None 7 sample_proc2)))) = 2%nat
      ∧ pending 0 None 7 w' = drop 2 (pending 0 None 7 sample_proc2)
      ∧ others 0 None 7 w' = others 0 None 7 sample_proc2.
Proof.
  assert (Z.of_nat (size sample_map) <= INT_MAX) as Hsize
    by (vm_compute; discriminate).
  assert (size sample_map ≤ length (pending 0%Z None 7%Z sample_proc2))%nat
    as Hlen by (vm_compute; lia).
  assert (Forall (λ e, env_source e ∈ dom sample_map)
            (take (size sample_map) (pending 0 None 7 sample_proc2))) as Hall.
  { repeat constructor; apply elem_of_dom; by eexists. }
  exact (proj1 (RecvAll_receives_map_size_messages 7 false sample_map 0
                  sample_proc2 Hsize) Hlen Hall).
Defined.

Example RecvAll_same_source_twice :
  ∃ m w', RecvAll 7 false sample_map 0 sample_proc2 = Ok (m, w')
        ∧ m !! 1 = Some (mkVarMessage ["002"%byte] None tt)
        ∧ m !! 2 = Some (mkVarMessage [] None tt)
        ∧ inbox w' = []
        ∧ calls w' = [CallProbe; CallRecv 1 1; CallDecode 1;
                      CallProbe; CallRecv 1 1; CallDecode 1].
Proof.
  eexists _, _. split; [vm_compute; reflexivity|].
  repeat split; vm_compute; reflexivity.
Qed.

(** * Properties of GroupTopology *)

Lemma Array_at_Some a i x :
  Array_at a i = Some x ↔ 0 <= i ∧ a !! Z.to_nat i = Some x.
Proof.
  unfold Array_at. destruct (Z.ltb_spec i 0) as [Hneg|Hpos].
  - split; [done|]. intros [Hle _]. lia.
  - split; [done|]. by intros [_ Hx].
Qed.

Lemma index_of_head `{EqDecision A} (x : A) (l : list A) :
  index_of x (x :: l) = 0.
Proof. unfold index_of. simpl. by rewrite decide_True. Qed.

Lemma lowest_rank_singleton (r : Z) : lowest_rank {[r]} = r.
Proof. unfold lowest_rank. by rewrite elements_singleton. Qed.

Section GroupTopology_facts.
Variable MPI_Comm_rank : MPI_Comm → Z.
Variable peer_groups : Z → list (gset Z).

(** C3: after [Create], group 0 has size 1 and consists of neighbor 0 only,
    its master is neighbor 0, so the local process is its master, and
    neighbor 0 is the local rank. *)
Theorem Create_group_zero gt groups mpitag :
  let gt' := Create MPI_Comm_rank peer_groups gt groups mpitag in
  GetGroupSize gt' 0 = Some 1
  ∧ GetGroup gt' 0 = Some [0]
  ∧ GetGroupMaster gt' 0 = Some 0
  ∧ IAmMaster gt' 0 = Some true
  ∧ GetNeighborRank gt' 0 = Some (MyRank MPI_Comm_rank gt').
Proof.
  unfold GetGroupSize, GetGroup, GetGroupMaster, IAmMaster, GetNeighborRank,
    Table_RowSize, Table_GetRow, Array_at, Create, canonical_groups, neighbors.
  simpl. rewrite lowest_rank_singleton, elements_singleton. simpl.
  rewrite index_of_head. by repeat split.
Qed.

(** C9: when the neighbor table has no repeated rank and its entry 0 is the
    local rank, [IAmMaster(g)] answers true exactly when
    [GetGroupMasterRank(g)] is the local rank. *)
Theorem IAmMaster_iff_master_rank gt g :
  NoDup (lproc_proc gt) →
  GetNeighborRank gt 0 = Some (MyRank MPI_Comm_rank gt) →
  IAmMaster gt g = Some true
  ↔ GetGroupMasterRank gt g = Some (MyRank MPI_Comm_rank gt).
Proof.
  intros Hnd H0. unfold IAmMaster, GetGroupMasterRank, GetNeighborRank in *.
  destruct (Array_at (groupmaster_lproc gt) g) as [m|]; simpl; [|done].
  split.
  - intros [= ->%bool_decide_eq_true]. done.
  - intros Hm. apply Array_at_Some in Hm as [Hpos Hm].
    apply Array_at_Some in H0 as [_ H0].
    assert (Z.to_nat m = Z.to_nat 0) as Heq
      by (eapply NoDup_lookup; eauto).
    f_equal. apply bool_decide_eq_true. lia.
Qed.

End GroupTopology_facts.

Lemma IAmMaster_iff_master_rank_witness :
  IAmMaster sample_topology 2 = Some true
  ↔ GetGroupMasterRank sample_topology 2 = Some (MyRank (λ _, 3) sample_topology).
Proof.
  assert (NoDup (lproc_proc sample_topology)) as Hnd.
  { apply (bool_decide_unpack (NoDup (lproc_proc sample_topology))).
    vm_compute. exact I. }
  assert (GetNeighborRank sample_topology 0
          = Some (MyRank (λ _, 3) sample_topology)) as H0 by reflexivity.
  exact (IAmMaster_iff_master_rank (λ _, 3) sample_topology 2 Hnd H0).
Defined.

(** * Properties of GroupCommunicator *)

Section Fused_facts.
Context {State ptr OpFn : Type}.
Variable BcastBegin : ptr → Z → comp State unit.
Variable BcastEnd : ptr → Z → comp State unit.
Variable ReduceBegin : ptr → comp State unit.
Variable ReduceEnd : ptr → Z → OpFn → comp State unit.

(** C5: the fused [Bcast] is [BcastBegin] followed by [BcastEnd] on the same
    arguments, and the fused [Reduce] is [ReduceBegin] followed by
    [ReduceEnd] with layout 0: same outcome and same final state, from every
    state. *)
Theorem fused_is_Begin_then_End (ldata : ptr) (layout : Z) (Op : OpFn)
    (s : State) :
  Bcast BcastBegin BcastEnd ldata layout s
  = Begin_then_End (BcastBegin ldata layout) (BcastEnd ldata layout) s
  ∧ Reduce ReduceBegin ReduceEnd ldata Op s
    = Begin_then_End (ReduceBegin ldata) (ReduceEnd ldata 0 Op) s.
Proof.
  unfold Bcast, Reduce, Begin_then_End. mpi_unfold. split.
  - by destruct (BcastBegin ldata layout s) as [[[] s']|].
  - by destruct (ReduceBegin ldata s) as [[[] s']|].
Qed.

End Fused_facts.

Module LockProtocolFacts.
Import LockProtocol.

Lemma run_snoc h o gc :
  run (h ++ [o]) gc
  = match run h gc with
    | Ok (_, gc') => call o gc'
    | Fail e => Fail e
    end.
Proof.
  revert gc. induction h as [|o' h IH]; intros gc; simpl.
  - mpi_unfold. by destruct (call o gc) as [[[] gc']|].
  - mpi_unfold. destruct (call o' gc) as [[[] gc']|]; [|done]. apply IH.
Qed.

Lemma in_flight_nil k : ¬ in_flight k [].
Proof. by intros (o & Hlast & _). Qed.

Lemma in_flight_snoc k h o :
  in_flight k (h ++ [o])
  ↔ if decide (op_kind o = k) then is_begin o = true else in_flight k h.
Proof.
  unfold in_flight. rewrite filter_app, filter_cons, filter_nil.
  destruct (decide (op_kind o = k)) as [Hk|Hk].
  - rewrite last_snoc. split.
    + by intros (o' & [= <-] & Hb).
    + intros Hb. by exists o.
  - by rewrite app_nil_r.
Qed.

Lemma token_values k : token k = 1 ∨ token k = 2.
Proof. destruct k; auto. Qed.

Lemma token_inj k k' : token k = token k' → k = k'.
Proof. by destruct k, k'. Qed.

Lemma Begin_inv k gc u gc' :
  Begin k gc = Ok (u, gc') → comm_lock gc = 0 ∧ comm_lock gc' = token k.
Proof.
  unfold Begin. destruct (Z.eqb_spec (comm_lock gc) 0); [|done].
  by intros [= <- <-].
Qed.

Lemma End_inv k gc u gc' :
  End k gc = Ok (u, gc') →
  comm_lock gc' = if decide (comm_lock gc = token k) then 0 else comm_lock gc.
Proof.
  unfold End. destruct (Z.eqb_spec (comm_lock gc) (token k)).
  - intros [= <- <-]. by rewrite decide_True.
  - intros [= <- <-]. by rewrite decide_False.
Qed.

Lemma call_inv o gc u gc' :
  call o gc = Ok (u, gc') →
  if is_begin o
  then comm_lock gc = 0 ∧ comm_lock gc' = token (op_kind o)
  else comm_lock gc'
       = if decide (comm_lock gc = token (op_kind o)) then 0 else comm_lock gc.
Proof.
  destruct o; simpl; unfold BcastBegin, BcastEnd, ReduceBegin, ReduceEnd.
  - apply Begin_inv.
  - apply End_inv.
  - apply Begin_inv.
  - apply End_inv.
Qed.

(** The lock token records the operation in flight. *)
Lemma lock_tracks_in_flight h : ∀ gc0 u gc,
  comm_lock gc0 = 0 →
  run h gc0 = Ok (u, gc) →
  (comm_lock gc = 0 ∨ comm_lock gc = 1 ∨ comm_lock gc = 2)
  ∧ ∀ k, comm_lock gc = token k ↔ in_flight k h.
Proof.
  induction h as [|o h IH] using rev_ind; intros gc0 u gc Hidle Hrun.
  - injection Hrun as <- <-. split; [auto|]. intros k. split.
    + destruct (token_values k); lia.
    + by intros ?%in_flight_nil.
  - rewrite run_snoc in Hrun.
    destruct (run h gc0) as [[[] gc1]|] eqn:Hh; [|done].
    destruct (IH gc0 () gc1 Hidle Hh) as [Hvals Htrack].
    apply call_inv in Hrun.
    destruct (is_begin o) eqn:Hb.
    + destruct Hrun as [H1 H2]. split.
      { destruct (token_values (op_kind o)); lia. }
      intros k. rewrite in_flight_snoc, H2.
      destruct (decide (op_kind o = k)) as [<-|Hk]; [done|].
      rewrite <- Htrack, H1. split.
      * by intros ?%token_inj.
      * destruct (token_values k); lia.
    + split.
      { rewrite Hrun. destruct (decide _); [auto|done]. }
      intros k. rewrite in_flight_snoc, Hrun.
      destruct (decide (op_kind o = k)) as [<-|Hk].
      * rewrite Hb. destruct (decide (comm_lock gc1 = token (op_kind o))).
        -- split; [|done]. destruct (token_values (op_kind o)); lia.
        -- done.
      * rewrite <- Htrack.
        destruct (decide (comm_lock gc1 = token (op_kind o))) as [He|He]; [|done].
        split.
        -- destruct (token_values k); lia.
        -- rewrite He. by intros ?%token_inj.
Qed.

(** C1: on a communicator that went through the calls [h] since its
    construction, the lock token is 0, 1 or 2 and names the operation in
    flight; a Begin is a fatal usage error exactly when a begun broadcast or
    reduction has not had its End called; and two [BcastBegin] calls in a row
    always end in that error. *)
Theorem Begin_while_in_flight_is_fatal gt m h u gc :
  run h (GroupCommunicator_new gt m) = Ok (u, gc) →
  (comm_lock gc = 0 ∨ comm_lock gc = 1 ∨ comm_lock gc = 2)
  ∧ (∀ k, comm_lock gc = token k ↔ in_flight k h)
  ∧ (∀ ldata layout,
       BcastBegin ldata layout gc = Fail (Abort ObjectInUse)
       ↔ ∃ k, in_flight k h)
  ∧ (∀ ldata,
       ReduceBegin ldata gc = Fail (Abort ObjectInUse) ↔ ∃ k, in_flight k h)
  ∧ (∀ ldata layout ldata' layout',
       run (h ++ [OpBcastBegin ldata layout; OpBcastBegin ldata' layout'])
           (GroupCommunicator_new gt m)
       = Fail (Abort ObjectInUse)).
Proof.
  intros Hrun.
  destruct (lock_tracks_in_flight h (GroupCommunicator_new gt m) u gc
              eq_refl Hrun) as [Hvals Htrack].
  assert (∀ k', Begin k' gc = Fail (Abort ObjectInUse) ↔ ∃ k, in_flight k h)
    as Hbegin.
  { intros k'. unfold Begin.
    destruct (Z.eqb_spec (comm_lock gc) 0) as [H0|H0].
    - split; [done|]. intros [k Hk%Htrack].
      destruct (token_values k); lia.
    - split; [|done]. intros _.
      destruct Hvals as [?|[H1|H2]]; [done| |].
      + exists broadcast. by apply Htrack.
      + exists reduction. by apply Htrack. }
  split; [done|]. split; [done|].
  split; [intros ldata layout; apply Hbegin|].
  split; [intros ldata; apply Hbegin|].
  intros ldata layout ldata' layout'.
  change [OpBcastBegin ldata layout; OpBcastBegin ldata' layout']
    with ([OpBcastBegin ldata layout] ++ [OpBcastBegin ldata' layout']).
  rewrite app_assoc, !run_snoc, Hrun. simpl.
  unfold BcastBegin, Begin.
  destruct (Z.eqb_spec (comm_lock gc) 0); [|done]. done.
Qed.

End LockProtocolFacts.

Lemma Begin_while_in_flight_is_fatal_witness :
  LockProtocol.BcastBegin 0 0
    (mkGroupCommunicator sample_topology byNeighbor [] [] 0 1 0)
  = Fail (Abort ObjectInUse)
  ↔ ∃ k, LockProtocol.in_flight k [LockProtocol.OpBcastBegin 0 0].
Proof.
  assert (LockProtocol.run [LockProtocol.OpBcastBegin 0 0]
            (LockProtocol.GroupCommunicator_new sample_topology byNeighbor)
          = Ok (tt, mkGroupCommunicator sample_topology byNeighbor [] [] 0 1 0))
    as Hrun by reflexivity.
  exact (proj1 (proj2 (proj2
           (LockProtocolFacts.Begin_while_in_flight_is_fatal
              sample_topology byNeighbor _ _ _ Hrun))) 0 0).
Defined.

(** The fused wrappers over the lock protocol: a fused broadcast on an idle
    communicator leaves it idle; on a locked one it ends in the usage error. *)
Example Bcast_over_lock_protocol :
  Bcast LockProtocol.BcastBegin LockProtocol.BcastEnd 0 0
    (LockProtocol.GroupCommunicator_new sample_topology byNeighbor)
  = Ok (tt, LockProtocol.GroupCommunicator_new sample_topology byNeighbor)
  ∧ Bcast LockProtocol.BcastBegin LockProtocol.BcastEnd 0 0
      (mkGroupCommunicator sample_topology byNeighbor [] [] 0 2 0)
    = Fail (Abort ObjectInUse).
Proof. split; reflexivity. Qed.

(** * Further properties of VarMessage *)

Section Probe_Recv_more.
Context (Tag : Z) {D : Type} `{!Codec D}.
Implicit Types (this : VarMessage D) (w : Proc) (e : Envelope).

Lemma IProbe_found rank size comm w e r :
  extract (matches comm None Tag) (inbox w) = Some (e, r) →
  IProbe Tag rank size comm w
  = Ok ((true, env_source e, Z.of_nat (length (env_payload e))),
        mkProc (inbox w) (outbox w) (next_request w) (calls w ++ [CallIprobe])).
Proof.
  intros Hex. unfold IProbe, MPI_Iprobe. mpi_unfold. by rewrite Hex.
Qed.

Lemma IProbe_none rank size comm w :
  extract (matches comm None Tag) (inbox w) = None →
  IProbe Tag rank size comm w
  = Ok ((false, rank, size),
        mkProc (inbox w) (outbox w) (next_request w) (calls w ++ [CallIprobe])).
Proof.
  intros Hex. unfold IProbe, MPI_Iprobe. mpi_unfold. by rewrite Hex.
Qed.

Lemma RecvDrop_fits this rank size comm w e rest :
  extract (matches comm (Some rank) Tag) (inbox w) = Some (e, rest) →
  Z.of_nat (length (env_payload e)) <= size →
  RecvDrop Tag this rank size comm w
  = Ok (set_data this [],
        mkProc rest (outbox w) (next_request w)
               (calls w ++ [CallRecv rank size])).
Proof.
  intros Hex Hle. unfold RecvDrop, MPI_Recv. mpi_unfold.
  destruct (Z.ltb_spec size 0); [lia|]. simpl. rewrite Hex.
  destruct (Z.ltb_spec size (Z.of_nat (length (env_payload e)))); [lia|].
  simpl. change (Z.to_nat 0) with 0%nat. by rewrite resize_0.
Qed.

(** X1: the blocking [Probe] returns exactly when a message of the class is
    pending on the communicator, with the source and the byte length of the
    earliest one, and it leaves the mailbox as it was; with no such message it
    does not return. *)
Theorem Probe_returns_iff rank size comm w r s w' :
  (Probe Tag rank size comm w = Ok ((r, s), w')
   ↔ ∃ e tl, pending comm None Tag w = e :: tl
             ∧ r = env_source e
             ∧ s = Z.of_nat (length (env_payload e))
             ∧ w' = mkProc (inbox w) (outbox w) (next_request w)
                           (calls w ++ [CallProbe]))
  ∧ (Probe Tag rank size comm w = Fail Blocked
     ↔ pending comm None Tag w = []).
Proof.
  destruct (pending comm None Tag w) as [|e tl] eqn:Hp.
  - rewrite (Probe_blocked _ _ _ _ _ (pending_nil _ _ _ _ Hp)). split.
    + split; [done|]. by intros (e & tl & [=] & _).
    + done.
  - destruct (pending_cons _ _ _ _ _ _ Hp) as (rest & Hex & _).
    rewrite (Probe_found _ _ _ _ _ e rest Hex). split.
    + split.
      * intros [= <- <- <-]. by exists e, tl.
      * by intros (e' & tl' & [= <- <-] & -> & -> & ->).
    + done.
Qed.

(** X2: when [IProbe] reports a message, a [Recv] with the rank and size it
    returned comes back in every build with exactly the bytes of that
    message, and takes that message and no other out of the mailbox;
    [RecvDrop] takes the same message. *)
Theorem IProbe_then_Recv dbg this comm w rank0 size0 rank size w1 :
  IProbe Tag rank0 size0 comm w = Ok ((true, rank, size), w1) →
  ∃ e rest,
    extract (matches comm None Tag) (inbox w) = Some (e, rest)
    ∧ rank = env_source e
    ∧ size = Z.of_nat (length (env_payload e))
    ∧ Recv Tag dbg this rank size comm w1
      = Ok (Decode rank (set_data this (env_payload e)),
            mkProc rest (outbox w) (next_request w)
                   (calls w ++ [CallIprobe; CallRecv rank size; CallDecode rank]))
    ∧ RecvDrop Tag this rank size comm w1
      = Ok (set_data this [],
            mkProc rest (outbox w) (next_request w)
                   (calls w ++ [CallIprobe; CallRecv rank size])).
Proof.
  destruct (extract (matches comm None Tag) (inbox w)) as [[e rest]|] eqn:Hex.
  - rewrite (IProbe_found _ _ _ _ e rest Hex). intros [= <- <- <-].
    exists e, rest. repeat split; try done.
    + rewrite (Recv_exact _ _ _ _ _ _ _ e rest);
        [|by apply extract_any_source|done].
      simpl. by rewrite <- app_assoc.
    + rewrite (RecvDrop_fits _ _ _ _ _ e rest);
        [|by apply extract_any_source|simpl; lia].
      simpl. by rewrite <- app_assoc.
  - by rewrite IProbe_none.
Qed.

(** X3: [Recv] returns exactly when [size] is not negative and the earliest
    message from [rank] has at most [size] bytes (exactly [size] bytes when
    [MFEM_DEBUG] is defined).  [Decode] then sees a buffer of exactly [size]
    bytes: the received bytes followed by what the resized [data] held
    beyond them. *)
Theorem Recv_returns_iff MFEM_DEBUG this rank size comm w this' w' :
  Recv Tag MFEM_DEBUG this rank size comm w = Ok (this', w')
  ↔ ∃ e rest buf,
      extract (matches comm (Some rank) Tag) (inbox w) = Some (e, rest)
      ∧ 0 <= size
      ∧ (if MFEM_DEBUG then Z.of_nat (length (env_payload e)) = size
         else Z.of_nat (length (env_payload e)) <= size)
      ∧ buf = env_payload e
              ++ drop (length (env_payload e))
                   (resize (Z.to_nat size) x00 (data this))
      ∧ Z.of_nat (length buf) = size
      ∧ this' = Decode rank (set_data this buf)
      ∧ w' = mkProc rest (outbox w) (next_request w)
                    (calls w ++ [CallRecv rank size; CallDecode rank]).
Proof.
  assert (∀ e, Z.of_nat (length (env_payload e)) <= size →
            Z.of_nat (length (env_payload e
                              ++ drop (length (env_payload e))
                                   (resize (Z.to_nat size) x00 (data this))))
            = size) as Hbuf.
  { intros e Hle. rewrite length_app, length_drop, length_resize. lia. }
  destruct (Z.ltb_spec size 0) as [Hneg|Hpos].
  { rewrite Recv_negative by done. split; [done|].
    intros (e & rest & buf & _ & Hle & _). lia. }
  destruct (extract (matches comm (Some rank) Tag) (inbox w))
    as [[e rest]|] eqn:Hex.
  - destruct (Z.lt_trichotomy (Z.of_nat (length (env_payload e))) size)
      as [Hlt|[Heq|Hgt]].
    + rewrite (Recv_short _ _ _ _ _ _ _ e rest) by done.
      destruct MFEM_DEBUG.
      * split; [done|]. intros (e' & rest' & buf & [= <- <-] & _ & Hd & _). lia.
      * split.
        -- intros [= <- <-].
           exists e, rest,
             (env_payload e
              ++ drop (length (env_payload e))
                   (resize (Z.to_nat size) x00 (data this))).
           split; [done|]. split; [done|]. split; [lia|].
           split; [done|]. split; [apply Hbuf; lia|done].
        -- by intros (e' & rest' & buf & [= <- <-] & _ & _ & -> & _ & -> & ->).
    + rewrite (Recv_exact _ _ _ _ _ _ _ e rest) by done.
      assert (env_payload e
              ++ drop (length (env_payload e))
                   (resize (Z.to_nat size) x00 (data this))
              = env_payload e) as Hpay.
      { rewrite drop_ge, app_nil_r by (rewrite length_resize; lia). done. }
      split.
      * intros [= <- <-].
        exists e, rest,
          (env_payload e
           ++ drop (length (env_payload e))
                (resize (Z.to_nat size) x00 (data this))).
        split; [done|]. split; [done|]. split; [destruct MFEM_DEBUG; lia|].
        split; [done|]. split; [apply Hbuf; lia|]. by rewrite Hpay.
      * intros (e' & rest' & buf & [= <- <-] & _ & _ & -> & _ & -> & ->).
        by rewrite Hpay.
    + rewrite (Recv_long _ _ _ _ _ _ _ e rest); [|done|lia].
      split; [done|]. intros (e' & rest' & buf & [= <- <-] & _ & Hd & _).
      destruct MFEM_DEBUG; lia.
  - rewrite Recv_blocked by done. split; [done|].
    by intros (e' & rest' & buf & [=] & _).
Qed.

End Probe_Recv_more.

(** ** Iteration over a rank-to-message map *)

Global Instance key_le_total {V} : Total (@key_le V).
Proof. intros a b. unfold key_le. lia. Qed.

Global Instance key_le_trans {V} : Transitive (@key_le V).
Proof. intros a b c. unfold key_le. lia. Qed.

Lemma map_entries_Permutation {V} (m : gmap Z V) :
  map_entries m ≡ₚ map_to_list m.
Proof. apply merge_sort_Permutation. Qed.

Lemma elem_of_map_entries {V} (m : gmap Z V) k v :
  (k, v) ∈ map_entries m ↔ m !! k = Some v.
Proof. by rewrite map_entries_Permutation, elem_of_map_to_list. Qed.

Lemma NoDup_map_entries {V} (m : gmap Z V) : NoDup (map_entries m).*1.
Proof. rewrite map_entries_Permutation. apply NoDup_fst_map_to_list. Qed.

Lemma length_map_entries {V} (m : gmap Z V) :
  length (map_entries m) = size m.
Proof. by rewrite map_entries_Permutation, length_map_to_list. Qed.

Lemma map_entries_ascending {V} (m : gmap Z V) :
  StronglySorted Z.lt (map_entries m).*1.
Proof.
  assert (StronglySorted Z.le (map_entries m).*1) as Hle.
  { apply (StronglySorted_fmap _ key_le); [done|].
    apply StronglySorted_merge_sort; apply _. }
  pose proof (NoDup_map_entries m) as Hnd.
  induction Hle as [|k ks Hks IH Hall]; [constructor|].
  apply NoDup_cons in Hnd as [Hk Hnd]. constructor; [by apply IH|].
  rewrite Forall_forall in Hall |- *. intros k' Hk'.
  specialize (Hall k' Hk'). assert (k ≠ k') by (by intros ->). lia.
Qed.

Lemma insert_entries_notin {V} (l : list (Z * V)) (m : gmap Z V) k :
  k ∉ l.*1 → insert_entries l m !! k = m !! k.
Proof.
  revert m. induction l as [|[k' v] l IH]; intros m Hk; [done|].
  simpl in *. apply not_elem_of_cons in Hk as [Hne Hk].
  unfold insert_entries in *. simpl. rewrite IH by done.
  by rewrite lookup_insert_ne.
Qed.

Lemma insert_entries_in {V} (l : list (Z * V)) (m : gmap Z V) k v :
  NoDup l.*1 → (k, v) ∈ l → insert_entries l m !! k = Some v.
Proof.
  revert m. induction l as [|[k' v'] l IH]; intros m Hnd Hin.
  - by apply elem_of_nil in Hin.
  - simpl in Hnd. apply NoDup_cons in Hnd as [Hk' Hnd].
    apply elem_of_cons in Hin as [[= -> ->]|Hin].
    + change (insert_entries ((k', v') :: l) m)
        with (insert_entries l (<[k' := v']> m)).
      rewrite insert_entries_notin by done. apply lookup_insert_eq.
    + change (insert_entries ((k', v') :: l) m)
        with (insert_entries l (<[k' := v']> m)).
      by apply IH.
Qed.

(** Writing a function of every value back to its own key is a map over the
    values. *)
Lemma insert_entries_fmap {V} (f : V → V) (m : gmap Z V) :
  insert_entries ((λ it, (it.1, f it.2)) <$> map_entries m) m = f <$> m.
Proof.
  apply map_eq. intros k. rewrite lookup_fmap.
  assert (((λ it : Z * V, (it.1, f it.2)) <$> map_entries m).*1
          = (map_entries m).*1) as Hkeys.
  { rewrite <- list_fmap_compose. by apply list_fmap_ext. }
  destruct (m !! k) as [v|] eqn:Hk; simpl.
  - apply insert_entries_in.
    + rewrite Hkeys. apply NoDup_map_entries.
    + apply list_elem_of_fmap. exists (k, v). split; [done|].
      by apply elem_of_map_entries.
  - rewrite insert_entries_notin; [done|]. rewrite Hkeys.
    intros ([k' v] & Heq & Hin)%list_elem_of_fmap. simpl in Heq. subst k'.
    apply elem_of_map_entries in Hin. congruence.
Qed.

(** ** IsendAll and WaitAllSent *)

Section Bulk_facts.
Context (Tag : Z) {D : Type} `{!Codec D}.
Implicit Types (w : Proc) (rank_msg : gmap Z (VarMessage D)).
Implicit Types (its : list (Z * VarMessage D)).

Lemma IsendAll_loop_run comm its : ∀ rank_msg w,
  Forall payload_fits its →
  IsendAll_loop Tag its rank_msg comm w
  = Ok (insert_entries (imap (sent_by (next_request w)) its) rank_msg,
        mkProc (inbox w)
               (outbox w ++ imap (posted_by Tag comm (next_request w)) its)
               (next_request w + length its)
               (calls w ++ isend_calls its)).
Proof.
  induction its as [|[k msg] its IH]; intros rank_msg w Hfits.
  - simpl. rewrite !app_nil_r, Nat.add_0_r. by destruct w.
  - apply Forall_cons in Hfits as [Hfit Hfits]. unfold payload_fits in Hfit.
    simpl in Hfit.
    change (IsendAll_loop Tag ((k, msg) :: its) rank_msg comm w)
      with ((msg' ← Isend Tag msg k comm;
             IsendAll_loop Tag its (<[k := msg']> rank_msg) comm) w).
    unfold mbind at 1. unfold comp_bind at 1.
    rewrite Isend_ok by done. rewrite IH by done.
    rewrite !imap_cons. cbn [inbox outbox next_request calls length].
    rewrite (imap_ext (sent_by (S (next_request w)))
                      (sent_by (next_request w) ∘ S))
      by (intros i x _; unfold sent_by; simpl; by rewrite Nat.add_succ_r).
    rewrite (imap_ext (posted_by Tag comm (S (next_request w)))
                      (posted_by Tag comm (next_request w) ∘ S))
      by (intros i x _; unfold posted_by; simpl; by rewrite Nat.add_succ_r).
    unfold sent_by at 2, posted_by at 2. simpl.
    rewrite Nat.add_0_r, <- !app_assoc, Nat.add_succ_r. done.
Qed.

Lemma sent_by_keys r0 its : (imap (sent_by r0) its).*1 = its.*1.
Proof.
  rewrite fmap_imap. rewrite (imap_ext _ (const fst)) by done.
  by rewrite imap_const.
Qed.

Lemma posted_by_dests comm r0 its :
  post_dest <$> imap (posted_by Tag comm r0) its = its.*1.
Proof.
  rewrite fmap_imap. rewrite (imap_ext _ (const fst)) by done.
  by rewrite imap_const.
Qed.

Lemma posted_by_requests comm r0 its :
  post_request <$> imap (posted_by Tag comm r0) its
  = seq r0 (length its).
Proof.
  revert r0. induction its as [|it its IH]; intros r0; [done|].
  rewrite imap_cons. simpl. rewrite Nat.add_0_r. f_equal.
  rewrite <- IH. f_equal. apply imap_ext. intros i x _.
  unfold posted_by. simpl. by rewrite Nat.add_succ_r.
Qed.

Lemma WaitAllSent_loop_run completes its : ∀ rank_msg w,
  Forall (λ it, request_done completes (send_request it.2) w) its →
  WaitAllSent_loop completes its rank_msg w
  = Ok (insert_entries ((λ it, (it.1, Clear it.2)) <$> its) rank_msg, w).
Proof.
  induction its as [|[k msg] its IH]; intros rank_msg w Hall; [done|].
  apply Forall_cons in Hall as [Hreq Hall]. simpl in Hreq.
  change (WaitAllSent_loop completes ((k, msg) :: its) rank_msg w)
    with ((req ← MPI_Wait completes (send_request msg);
           WaitAllSent_loop completes its
             (<[k := Clear (set_send_request msg req)]> rank_msg)) w).
  unfold mbind at 1. unfold comp_bind at 1.
  assert (MPI_Wait completes (send_request msg) w = Ok (MPI_REQUEST_NULL, w))
    as ->.
  { unfold MPI_Wait. destruct (send_request msg) as [r|]; [|done].
    destruct Hreq as [Hin Hc]. by rewrite bool_decide_eq_true_2, Hc. }
  by rewrite IH.
Qed.

Lemma WaitAllSent_loop_inv completes its : ∀ rank_msg w rank_msg' w',
  WaitAllSent_loop completes its rank_msg w = Ok (rank_msg', w') →
  Forall (λ it, request_done completes (send_request it.2) w) its.
Proof.
  induction its as [|[k msg] its IH]; intros rank_msg w rank_msg' w' Hrun;
    [constructor|].
  change (WaitAllSent_loop completes ((k, msg) :: its) rank_msg w)
    with ((req ← MPI_Wait completes (send_request msg);
           WaitAllSent_loop completes its
             (<[k := Clear (set_send_request msg req)]> rank_msg)) w) in Hrun.
  unfold mbind at 1 in Hrun. unfold comp_bind at 1 in Hrun.
  unfold MPI_Wait in Hrun.
  destruct (send_request msg) as [r|] eqn:Hr.
  - destruct (bool_decide (r ∈ post_request <$> outbox w)) eqn:Hin; [|done].
    apply bool_decide_eq_true in Hin.
    destruct (completes r) eqn:Hc; [|done].
    constructor; [simpl; by rewrite Hr|]. by eapply IH.
  - constructor; [simpl; by rewrite Hr|]. by eapply IH.
Qed.

(** A wait on a send that does not complete stops the loop for ever. *)
Lemma WaitAllSent_loop_blocked completes its : ∀ rank_msg w,
  Forall (λ it, request_posted (send_request it.2) w) its →
  Exists (λ it, request_stuck completes (send_request it.2)) its →
  WaitAllSent_loop completes its rank_msg w = Fail Blocked.
Proof.
  induction its as [|[k msg] its IH]; intros rank_msg w Hall Hex.
  - by apply Exists_nil in Hex.
  - apply Forall_cons in Hall as [Hreq Hall]. simpl in Hreq.
    change (WaitAllSent_loop completes ((k, msg) :: its) rank_msg w)
      with ((req ← MPI_Wait completes (send_request msg);
             WaitAllSent_loop completes its
               (<[k := Clear (set_send_request msg req)]> rank_msg)) w).
    unfold mbind at 1. unfold comp_bind at 1. unfold MPI_Wait.
    apply Exists_cons in Hex as [Hstuck|Hex]; simpl in *.
    + destruct (send_request msg) as [r|]; [|done].
      simpl in *. by rewrite bool_decide_eq_true_2, Hstuck.
    + destruct (send_request msg) as [r|]; [|by apply IH].
      simpl in *. rewrite bool_decide_eq_true_2 by done.
      destruct (completes r); [by apply IH|done].
Qed.

Lemma Forall_map_entries (P : Z * VarMessage D → Prop) rank_msg :
  Forall P (map_entries rank_msg)
  ↔ ∀ k msg, rank_msg !! k = Some msg → P (k, msg).
Proof.
  rewrite Forall_forall. split.
  - intros Hall k msg Hk. by apply Hall, elem_of_map_entries.
  - intros Hall [k msg] Hin. by apply Hall, elem_of_map_entries.
Qed.

Lemma IsendAll_eq rank_msg comm w :
  (∀ k msg, rank_msg !! k = Some msg → payload_fits (k, msg)) →
  IsendAll Tag rank_msg comm w
  = Ok (insert_entries (imap (sent_by (next_request w)) (map_entries rank_msg))
                       rank_msg,
        mkProc (inbox w)
               (outbox w ++ imap (posted_by Tag comm (next_request w))
                                 (map_entries rank_msg))
               (next_request w + size rank_msg)
               (calls w ++ isend_calls (map_entries rank_msg))).
Proof.
  intros Hfit. unfold IsendAll.
  rewrite IsendAll_loop_run by (by apply Forall_map_entries).
  by rewrite length_map_entries.
Qed.

Lemma sent_lookup r0 rank_msg i k msg :
  map_entries rank_msg !! i = Some (k, msg) →
  insert_entries (imap (sent_by r0) (map_entries rank_msg)) rank_msg !! k
  = Some (set_send_request (Encode k msg) (Some (r0 + i)%nat)).
Proof.
  intros Hi. apply insert_entries_in.
  - rewrite sent_by_keys. apply NoDup_map_entries.
  - apply list_elem_of_lookup. exists i.
    by rewrite list_lookup_imap, Hi.
Qed.

Lemma sent_lookup_inv r0 rank_msg k msg' :
  insert_entries (imap (sent_by r0) (map_entries rank_msg)) rank_msg !! k
  = Some msg' →
  ∃ i msg, map_entries rank_msg !! i = Some (k, msg)
           ∧ msg' = set_send_request (Encode k msg) (Some (r0 + i)%nat).
Proof.
  intros Hk. destruct (rank_msg !! k) as [msg|] eqn:Hm.
  - apply elem_of_map_entries, list_elem_of_lookup in Hm as [i Hi].
    exists i, msg. split; [done|].
    rewrite (sent_lookup r0 _ i k msg Hi) in Hk. congruence.
  - rewrite insert_entries_notin in Hk; [congruence|].
    rewrite sent_by_keys. intros ([k' v] & Heq & Hin)%list_elem_of_fmap.
    simpl in Heq. subst k'. apply elem_of_map_entries in Hin. congruence.
Qed.

(** X4: when every encoded payload fits an [int] count, [IsendAll] posts one
    send per entry of the map, in ascending order of the keys, each to its key
    as destination and with a request handle of its own.  It leaves the key
    set and the inbox as they were, and afterwards the send of every entry is
    pending: no entry may be destroyed yet. *)
Theorem IsendAll_posts_every_entry rank_msg comm w :
  (∀ k msg, rank_msg !! k = Some msg →
     Z.of_nat (length (data (Encode k msg))) <= INT_MAX) →
  ∃ rank_msg' w',
    IsendAll Tag rank_msg comm w = Ok (rank_msg', w')
    ∧ dom rank_msg' = dom rank_msg
    ∧ inbox w' = inbox w
    ∧ outbox w' = outbox w ++ imap (posted_by Tag comm (next_request w))
                                   (map_entries rank_msg)
    ∧ (∀ k msg, (k, msg) ∈ map_entries rank_msg ↔ rank_msg !! k = Some msg)
    ∧ StronglySorted Z.lt (map_entries rank_msg).*1
    ∧ (∀ i k msg, map_entries rank_msg !! i = Some (k, msg) →
         rank_msg' !! k
         = Some (set_send_request (Encode k msg)
                                  (Some (next_request w + i)%nat)))
    ∧ (∀ k msg', rank_msg' !! k = Some msg' →
         send_request msg' ≠ MPI_REQUEST_NULL
         ∧ VarMessage_destroy msg' w' = Fail (Abort PendingSendOnDestroy)).
Proof.
  intros Hfit. eexists _, _. split; [by apply IsendAll_eq|]. simpl.
  split; [|split; [done|split; [done|split; [|split; [|split]]]]].
  - apply set_eq. intros k. rewrite !elem_of_dom. split.
    + intros [msg' (i & msg & Hi & _)%sent_lookup_inv].
      exists msg. apply elem_of_map_entries, list_elem_of_lookup. by exists i.
    + intros [msg Hm].
      apply elem_of_map_entries, list_elem_of_lookup in Hm as [i Hi].
      eexists. by apply (sent_lookup _ _ i k msg).
  - intros k msg. apply elem_of_map_entries.
  - apply map_entries_ascending.
  - intros i k msg Hi. by apply sent_lookup.
  - intros k msg' (i & msg & Hi & ->)%sent_lookup_inv. split; [done|].
    done.
Qed.

(** X5: whenever [WaitAllSent] returns, every message of the map is cleared
    (empty [data], null request, derived state kept), also a message that was
    never sent; the key set and the mailbox are as before, and every request
    was null or the handle of a posted send that completed.  It does return
    when every request is of that kind. *)
Theorem WaitAllSent_clears_every_entry completes rank_msg w :
  (∀ rank_msg' w',
     WaitAllSent completes rank_msg w = Ok (rank_msg', w') →
     rank_msg' = Clear <$> rank_msg
     ∧ dom rank_msg' = dom rank_msg
     ∧ w' = w
     ∧ ∀ k msg, rank_msg !! k = Some msg →
         request_done completes (send_request msg) w)
  ∧ ((∀ k msg, rank_msg !! k = Some msg →
        request_done completes (send_request msg) w) →
     WaitAllSent completes rank_msg w = Ok (Clear <$> rank_msg, w)).
Proof.
  unfold WaitAllSent. split.
  - intros rank_msg' w' Hrun.
    pose proof (WaitAllSent_loop_inv _ _ _ _ _ _ Hrun) as Hall.
    rewrite (WaitAllSent_loop_run _ _ _ _ Hall), insert_entries_fmap in Hrun.
    injection Hrun as <- <-. split; [done|]. split; [by rewrite dom_fmap_L|].
    split; [done|]. intros k msg Hk.
    exact (proj1 (Forall_map_entries
                    (λ it, request_done completes (send_request it.2) w) _)
                 Hall k msg Hk).
  - intros Hall.
    rewrite WaitAllSent_loop_run, insert_entries_fmap; [done|].
    by apply (Forall_map_entries
                (λ it, request_done completes (send_request it.2) w)).
Qed.

(** X6: after [IsendAll] (payloads fitting an [int] count), [WaitAllSent]
    returns when every one of the sends just posted completes and never
    returns when one of them does not.  When it returns, every message is
    cleared, keeping the derived state [Encode] left, the posted sends stay in
    the outbox, and every message can be destroyed or copied. *)
Theorem IsendAll_then_WaitAllSent completes rank_msg comm w :
  (∀ k msg, rank_msg !! k = Some msg →
     Z.of_nat (length (data (Encode k msg))) <= INT_MAX) →
  ∃ rank_msg1 w1,
    IsendAll Tag rank_msg comm w = Ok (rank_msg1, w1)
    ∧ ((∀ i, (i < size rank_msg)%nat →
          completes (next_request w + i)%nat = true) →
       WaitAllSent completes rank_msg1 w1 = Ok (Clear <$> rank_msg1, w1))
    ∧ ((∃ i, (i < size rank_msg)%nat
             ∧ completes (next_request w + i)%nat = false) →
       WaitAllSent completes rank_msg1 w1 = Fail Blocked)
    ∧ (∀ k msg, rank_msg !! k = Some msg →
         (Clear <$> rank_msg1) !! k
         = Some (mkVarMessage [] MPI_REQUEST_NULL (derived (Encode k msg))))
    ∧ (∀ k msg', (Clear <$> rank_msg1) !! k = Some msg' →
         VarMessage_destroy msg' w1 = Ok (tt, w1)
         ∧ VarMessage_copy msg' w1 = Ok (msg', w1)).
Proof.
  intros Hfit. eexists _, _. split; [by apply IsendAll_eq|].
  assert (∀ k msg',
            insert_entries (imap (sent_by (next_request w))
                                 (map_entries rank_msg)) rank_msg !! k
            = Some msg' →
            ∃ i, (i < size rank_msg)%nat
                 ∧ send_request msg' = Some (next_request w + i)%nat
                 ∧ (next_request w + i)%nat
                   ∈ post_request
                     <$> (outbox w ++ imap (posted_by Tag comm (next_request w))
                                           (map_entries rank_msg)))
    as Hsent.
  { intros k msg' (i & msg & Hi & ->)%sent_lookup_inv.
    apply lookup_lt_Some in Hi. rewrite length_map_entries in Hi.
    exists i. split; [done|]. split; [done|].
    rewrite fmap_app, posted_by_requests. apply elem_of_app. right.
    apply elem_of_seq. rewrite length_map_entries. lia. }
  split; [|split; [|split]].
  - intros Hall. unfold WaitAllSent.
    rewrite WaitAllSent_loop_run, insert_entries_fmap; [done|].
    apply Forall_map_entries. intros k msg' Hk.
    destruct (Hsent k msg' Hk) as (i & Hi & Hreq & Hin). simpl.
    rewrite Hreq. simpl. split; [done|]. by apply Hall.
  - intros (i & Hi & Hstuck). unfold WaitAllSent.
    apply WaitAllSent_loop_blocked.
    + apply Forall_map_entries. intros k msg' Hk.
      destruct (Hsent k msg' Hk) as (j & Hj & Hreq & Hin). simpl.
      by rewrite Hreq.
    + rewrite <- length_map_entries in Hi.
      apply lookup_lt_is_Some_2 in Hi as [[k msg] Hi].
      apply Exists_exists.
      exists (k, set_send_request (Encode k msg) (Some (next_request w + i)%nat)).
      split; [|done].
      apply elem_of_map_entries. by apply sent_lookup.
  - intros k msg Hm.
    apply elem_of_map_entries, list_elem_of_lookup in Hm as [i Hi].
    by rewrite lookup_fmap, (sent_lookup _ _ i k msg Hi).
  - intros k msg' Hk. rewrite lookup_fmap in Hk.
    destruct (insert_entries _ _ !! k) as [msg1|]; [|done].
    injection Hk as <-. split; [done|]. by destruct msg1.
Qed.

End Bulk_facts.

(** ** RecvAll, whenever it returns *)

Section RecvAll_more.
Context (Tag : Z) {D : Type} `{!Codec D} `{!Inhabited D}.
Implicit Types (w : Proc) (e : Envelope).
Implicit Types (rank_msg : gmap Z (VarMessage D)).

Lemma RecvAll_loop_Ok_inv dbg comm n : ∀ rank_msg w rank_msg' w',
  RecvAll_loop Tag dbg n rank_msg comm w = Ok (rank_msg', w') →
  (n ≤ length (pending comm None Tag w))%nat
  ∧ Forall (λ e, env_source e ∈ dom rank_msg)
           (take n (pending comm None Tag w)).
Proof.
  induction n as [|n IH]; intros rank_msg w rank_msg' w' Hrun.
  - split; [lia|]. rewrite take_0. constructor.
  - destruct (pending comm None Tag w) as [|e tl] eqn:Hp.
    + rewrite RecvAll_loop_blocked in Hrun; [done|rewrite Hp; simpl; lia|].
      rewrite Hp. constructor.
    + destruct (pending_cons _ _ _ _ _ _ Hp) as (r & Hex & Htl & Hoth).
      rewrite (RecvAll_loop_step _ _ _ _ _ _ e r Hex) in Hrun.
      destruct (decide (env_source e ∈ dom rank_msg)) as [He|He].
      * rewrite bool_decide_eq_true_2 in Hrun by done.
        apply IH in Hrun as [Hlen Hall]. unfold pending in Hlen, Hall.
        simpl in Hlen, Hall. rewrite Htl in Hlen, Hall.
        rewrite dom_deliver in Hall by done.
        split; [simpl; lia|]. rewrite firstn_cons. by constructor.
      * by rewrite bool_decide_eq_false_2 in Hrun.
Qed.

Lemma foldl_deliver_frame es : ∀ rank_msg k,
  k ∉ env_source <$> es → foldl deliver rank_msg es !! k = rank_msg !! k.
Proof.
  induction es as [|e es IH]; intros rank_msg k Hk; [done|].
  rewrite fmap_cons in Hk. apply not_elem_of_cons in Hk as [Hne Hk].
  simpl. rewrite IH by done. unfold deliver. by rewrite lookup_insert_ne.
Qed.

Lemma dom_foldl_deliver es : ∀ rank_msg,
  Forall (λ e, env_source e ∈ dom rank_msg) es →
  dom (foldl deliver rank_msg es) = dom rank_msg.
Proof.
  induction es as [|e es IH]; intros rank_msg Hall; [done|].
  apply Forall_cons in Hall as [He Hall]. simpl.
  rewrite IH by (by rewrite dom_deliver). by apply dom_deliver.
Qed.

(** X7: whenever [RecvAll] returns, at least as many messages of the class
    were pending as the map has keys and the first of them all came from
    keys of the map; the map has the same keys as before, and an entry whose
    key sent none of the received messages is exactly as it was. *)
Theorem RecvAll_keeps_keys_and_other_entries dbg rank_msg comm w rank_msg' w' :
  Z.of_nat (size rank_msg) <= INT_MAX →
  RecvAll Tag dbg rank_msg comm w = Ok (rank_msg', w') →
  let n := size rank_msg in
  let msgs := pending comm None Tag w in
  (n ≤ length msgs)%nat
  ∧ Forall (λ e, env_source e ∈ dom rank_msg) (take n msgs)
  ∧ dom rank_msg' = dom rank_msg
  ∧ ∀ k, k ∉ env_source <$> take n msgs → rank_msg' !! k = rank_msg !! k.
Proof.
  intros Hsize Hrun n msgs. unfold RecvAll in Hrun.
  rewrite int_of_size_t_small, Nat2Z.id in Hrun by done. fold n in Hrun.
  destruct (RecvAll_loop_Ok_inv _ _ _ _ _ _ _ Hrun) as [Hlen Hall].
  destruct (RecvAll_loop_ok Tag dbg comm n rank_msg w Hlen Hall)
    as (w'' & Hok & _).
  rewrite Hok in Hrun. injection Hrun as <- _.
  split; [done|]. split; [done|]. split.
  - by apply dom_foldl_deliver.
  - intros k Hk. by apply foldl_deliver_frame.
Qed.

End RecvAll_more.

(** ** From a send to a receive *)

Section Round_trip.
Context (Tag : Z) {D : Type} `{!Codec D}.
Implicit Types (this that : VarMessage D) (w : Proc).

Lemma int_of_size_t_wrap (n : nat) q c :
  Z.of_nat n = q * 2 ^ 32 + c → - 2 ^ 31 <= c < 2 ^ 31 →
  int_of_size_t n = c.
Proof.
  intros Hn Hc. unfold int_of_size_t. rewrite Hn.
  replace (q * 2 ^ 32 + c + 2 ^ 31) with ((c + 2 ^ 31) + q * 2 ^ 32) by lia.
  rewrite Z.mod_add by lia. rewrite Z.mod_small; lia.
Qed.

(** X8: the [int] count of the send is the length of the encoded payload
    reduced modulo 2^32 into the range of [int].  A negative count is
    refused by the transport; otherwise the send goes out with only the first
    [count] bytes, so a payload of 2^32 or more bytes is sent cut short without
    any error. *)
Theorem Isend_count_wraps this rank comm w q c :
  Z.of_nat (length (data (Encode rank this))) = q * 2 ^ 32 + c →
  - 2 ^ 31 <= c < 2 ^ 31 →
  Isend Tag this rank comm w
  = if c <? 0 then Fail TransportError
    else Ok (set_send_request (Encode rank this) (Some (next_request w)),
             mkProc (inbox w)
                    (outbox w
                     ++ [mkPosted comm rank Tag
                           (take (Z.to_nat c) (data (Encode rank this)))
                           (next_request w)])
                    (S (next_request w))
                    (calls w ++ [CallEncode rank; CallIsend rank c])).
Proof.
  intros Hn Hc. unfold Isend, MPI_Isend. mpi_unfold.
  rewrite (int_of_size_t_wrap _ q c Hn Hc).
  destruct (c <? 0); [done|]. simpl. by rewrite <- app_assoc.
Qed.

(** X9: what [Isend] posts is what [Recv] hands to [Decode].  The send posted
    for [this] carries the [data] that [Encode] left; when that send arrives
    from rank [source] and is the earliest message from it, a [Recv] of its
    length returns in every build with exactly those bytes as [data]. *)
Theorem Isend_Recv_round_trip dbg this that dest source comm ws wr rest :
  Z.of_nat (length (data (Encode dest this))) <= INT_MAX →
  let p := mkPosted comm dest Tag (data (Encode dest this)) (next_request ws) in
  extract (matches comm (Some source) Tag) (inbox wr)
  = Some (arrive source p, rest) →
  (∃ this' ws', Isend Tag this dest comm ws = Ok (this', ws')
                ∧ outbox ws' = outbox ws ++ [p])
  ∧ Recv Tag dbg that source (Z.of_nat (length (post_payload p))) comm wr
    = Ok (Decode source (set_data that (data (Encode dest this))),
          mkProc rest (outbox wr) (next_request wr)
                 (calls wr
                  ++ [CallRecv source
                        (Z.of_nat (length (data (Encode dest this))));
                      CallDecode source])).
Proof.
  intros Hlen p Hex. split.
  - eexists _, _. split; [by apply Isend_ok|done].
  - by rewrite (Recv_exact _ _ _ _ _ _ _ (arrive source p) rest).
Qed.

End Round_trip.

(** With the byte-string class, the receiver ends with the byte string of the
    sender. *)
Example bytes_round_trip (this that : VarMessage (list byte)) dest source :
  derived (Decode source (set_data that (data (Encode dest this))))
  = derived this.
Proof. done. Qed.

(** ** RecvDrop against Recv *)

Section RecvDrop_more.
Context (Tag : Z) {D : Type} `{!Codec D}.
Implicit Types (this : VarMessage D) (w : Proc).

Lemma RecvDrop_inv this rank size comm w this' w' :
  RecvDrop Tag this rank size comm w = Ok (this', w') →
  ∃ e rest,
    extract (matches comm (Some rank) Tag) (inbox w) = Some (e, rest)
    ∧ 0 <= size
    ∧ Z.of_nat (length (env_payload e)) <= size.
Proof.
  unfold RecvDrop, MPI_Recv. mpi_unfold.
  destruct (Z.ltb_spec size 0) as [Hneg|Hpos]; [done|]. simpl.
  destruct (extract _ (inbox w)) as [[e rest]|]; [|done].
  destruct (Z.ltb_spec size (Z.of_nat (length (env_payload e)))); [done|].
  intros _. by exists e, rest.
Qed.

(** X10: [RecvDrop] is the receive of [Recv] without the decoding.  It returns
    on exactly the inputs on which the [Recv] of a build without [MFEM_DEBUG]
    returns, takes the same message out of the mailbox and makes the same MPI
    call; only the [Decode] call is missing and [data] ends empty. *)
Theorem RecvDrop_is_Recv_without_Decode this rank size comm w :
  (is_ok (RecvDrop Tag this rank size comm w)
   = is_ok (Recv Tag false this rank size comm w))
  ∧ ∀ this1 w1 this2 w2,
      RecvDrop Tag this rank size comm w = Ok (this1, w1) →
      Recv Tag false this rank size comm w = Ok (this2, w2) →
      this1 = set_data this []
      ∧ inbox w2 = inbox w1
      ∧ outbox w2 = outbox w1
      ∧ calls w1 = calls w ++ [CallRecv rank size]
      ∧ calls w2 = calls w1 ++ [CallDecode rank].
Proof.
  destruct (RecvDrop Tag this rank size comm w) as [[this1 w1]|f] eqn:Hdrop.
  - destruct (RecvDrop_inv _ _ _ _ _ _ _ Hdrop) as (e & rest & Hex & Hpos & Hle).
    rewrite (RecvDrop_fits _ _ _ _ _ _ e rest Hex Hle) in Hdrop.
    injection Hdrop as <- <-.
    assert (∃ this2, Recv Tag false this rank size comm w
                     = Ok (this2,
                           mkProc rest (outbox w) (next_request w)
                                  (calls w ++ [CallRecv rank size;
                                               CallDecode rank])))
      as [this2 Hrecv].
    { destruct (Z.eq_dec (Z.of_nat (length (env_payload e))) size) as [Heq|Hne].
      - eexists. by apply (Recv_exact _ _ _ _ _ _ _ e rest).
      - eexists. rewrite (Recv_short _ _ _ _ _ _ _ e rest); [done|done|lia]. }
    rewrite Hrecv. split; [done|].
    intros ? ? ? ? [= <- <-] [= <- <-]. simpl.
    by rewrite <- app_assoc.
  - split; [|done]. simpl.
    destruct (Recv Tag false this rank size comm w) as [[this2 w2]|] eqn:Hrecv;
      [|done].
    exfalso. revert Hrecv Hdrop. unfold Recv, RecvDrop, MPI_Recv. mpi_unfold.
    destruct (Z.leb_spec 0 size); [|done].
    destruct (Z.ltb_spec size 0); [lia|]. simpl.
    destruct (extract _ (inbox w)) as [[e rest]|]; [|done].
    destruct (Z.ltb_spec size (Z.of_nat (length (env_payload e)))); done.
Qed.

End RecvDrop_more.

(** ** Sample runs *)

Lemma sample_map_fits k (msg : VarMessage unit) :
  sample_map !! k = Some msg →
  Z.of_nat (length (data (Encode k msg))) <= INT_MAX.
Proof.
  unfold sample_map. intros Hk.
  apply lookup_insert_Some in Hk as [[_ <-]|[_ Hk]]; [by vm_compute|].
  apply lookup_insert_Some in Hk as [[_ <-]|[_ Hk]]; [by vm_compute|].
  by rewrite lookup_empty in Hk.
Qed.

Lemma IProbe_then_Recv_witness :
  ∃ e rest,
    extract (matches 0 None 7) (inbox sample_proc) = Some (e, rest)
    ∧ 1 = env_source e
    ∧ 2 = Z.of_nat (length (env_payload e))
    ∧ Recv 7 true (VarMessage_new (D:=unit)) 1 2 0
        (mkProc [sample_envelope] [] 0 [CallIprobe])
      = Ok (Decode 1 (set_data VarMessage_new (env_payload e)),
            mkProc rest (outbox sample_proc) (next_request sample_proc)
                   (calls sample_proc
                    ++ [CallIprobe; CallRecv 1 2; CallDecode 1]))
    ∧ RecvDrop 7 (VarMessage_new (D:=unit)) 1 2 0
        (mkProc [sample_envelope] [] 0 [CallIprobe])
      = Ok (set_data VarMessage_new [],
            mkProc rest (outbox sample_proc) (next_request sample_proc)
                   (calls sample_proc ++ [CallIprobe; CallRecv 1 2])).
Proof.
  assert (IProbe 7 0 0 0 sample_proc
          = Ok ((true, 1, 2), mkProc [sample_envelope] [] 0 [CallIprobe]))
    as Hprobe by reflexivity.
  exact (IProbe_then_Recv 7 true (VarMessage_new (D:=unit)) 0 sample_proc 0 0
           1 2 _ Hprobe).
Defined.

Lemma IsendAll_posts_every_entry_witness :
  ∃ rank_msg' w',
    IsendAll 7 sample_map 0 empty_proc = Ok (rank_msg', w')
    ∧ dom rank_msg' = dom sample_map
    ∧ inbox w' = inbox empty_proc
    ∧ outbox w' = outbox empty_proc
                  ++ imap (posted_by 7 0 (next_request empty_proc))
                          (map_entries sample_map)
    ∧ (∀ k msg, (k, msg) ∈ map_entries sample_map ↔ sample_map !! k = Some msg)
    ∧ StronglySorted Z.lt (map_entries sample_map).*1
    ∧ (∀ i k msg, map_entries sample_map !! i = Some (k, msg) →
         rank_msg' !! k
         = Some (set_send_request (Encode k msg)
                                  (Some (next_request empty_proc + i)%nat)))
    ∧ (∀ k msg', rank_msg' !! k = Some msg' →
         send_request msg' ≠ MPI_REQUEST_NULL
         ∧ VarMessage_destroy msg' w' = Fail (Abort PendingSendOnDestroy)).
Proof.
  exact (IsendAll_posts_every_entry 7 sample_map 0 empty_proc sample_map_fits).
Defined.

Lemma IsendAll_then_WaitAllSent_witness :
  ∃ rank_msg1 w1,
    IsendAll 7 sample_map 0 empty_proc = Ok (rank_msg1, w1)
    ∧ ((∀ i, (i < size sample_map)%nat →
          all_complete (next_request empty_proc + i)%nat = true) →
       WaitAllSent all_complete rank_msg1 w1 = Ok (Clear <$> rank_msg1, w1))
    ∧ ((∃ i, (i < size sample_map)%nat
             ∧ all_complete (next_request empty_proc + i)%nat = false) →
       WaitAllSent all_complete rank_msg1 w1 = Fail Blocked)
    ∧ (∀ k msg, sample_map !! k = Some msg →
         (Clear <$> rank_msg1) !! k
         = Some (mkVarMessage [] MPI_REQUEST_NULL (derived (Encode k msg))))
    ∧ (∀ k msg', (Clear <$> rank_msg1) !! k = Some msg' →
         VarMessage_destroy msg' w1 = Ok (tt, w1)
         ∧ VarMessage_copy msg' w1 = Ok (msg', w1)).
Proof.
  exact (IsendAll_then_WaitAllSent 7 all_complete sample_map 0 empty_proc
           sample_map_fits).
Defined.

(** When every send completes the two calls go through and leave both
    messages cleared; when the send to rank 2 does not complete, the wait
    never returns. *)
Example IsendAll_WaitAllSent_sample :
  (∃ m1 w1, IsendAll 7 sample_map 0 empty_proc = Ok (m1, w1)
          ∧ WaitAllSent all_complete m1 w1 = Ok (sample_map, w1)
          ∧ WaitAllSent first_completes m1 w1 = Fail Blocked)
  ∧ WaitAllSent all_complete
      (<[5 := mkVarMessage [] (Some 9%nat) tt]> sample_map) empty_proc
    = Fail TransportError.
Proof.
  split; [|vm_compute; reflexivity].
  eexists _, _. split; [vm_compute; reflexivity|].
  split; vm_compute; reflexivity.
Qed.

Lemma WaitAllSent_clears_every_entry_witness :
  WaitAllSent all_complete
    (<[4 := mkVarMessage ["001"%byte] (Some 0%nat) tt]> sample_map)
    (mkProc [] [mkPosted 0 4 7 ["001"%byte] 0] 1 [])
  = Ok (Clear <$> <[4 := mkVarMessage ["001"%byte] (Some 0%nat) tt]> sample_map,
        mkProc [] [mkPosted 0 4 7 ["001"%byte] 0] 1 []).
Proof.
  apply (proj2 (WaitAllSent_clears_every_entry all_complete
                  (<[4 := mkVarMessage ["001"%byte] (Some 0%nat) tt]> sample_map)
                  (mkProc [] [mkPosted 0 4 7 ["001"%byte] 0] 1 []))).
  intros k msg Hk.
  apply lookup_insert_Some in Hk as [[_ <-]|[_ Hk]].
  { simpl. split; [|done]. apply list_elem_of_singleton. done. }
  unfold sample_map in Hk.
  apply lookup_insert_Some in Hk as [[_ <-]|[_ Hk]]; [done|].
  apply lookup_insert_Some in Hk as [[_ <-]|[_ Hk]]; [done|].
  by rewrite lookup_empty in Hk.
Defined.

(** The sends of the sample map go out to rank 1, then to rank 2. *)
Example IsendAll_sample_order :
  ∃ m w', IsendAll 7 sample_map 0 empty_proc = Ok (m, w')
        ∧ outbox w' = [mkPosted 0 1 7 [] 0; mkPosted 0 2 7 [] 1]
        ∧ m !! 1 = Some (mkVarMessage [] (Some 0%nat) tt)
        ∧ m !! 2 = Some (mkVarMessage [] (Some 1%nat) tt).
Proof.
  eexists _, _. split; [vm_compute; reflexivity|].
  repeat split; vm_compute; reflexivity.
Qed.

Lemma RecvAll_keeps_keys_and_other_entries_witness :
  ∃ rank_msg' w',
    RecvAll 7 false sample_map 0 sample_proc2 = Ok (rank_msg', w')
    ∧ dom rank_msg' = dom sample_map
    ∧ rank_msg' !! 2 = sample_map !! 2.
Proof.
  assert (Z.of_nat (size sample_map) <= INT_MAX) as Hsize
    by (vm_compute; discriminate).
  assert (∃ m w', RecvAll 7 false sample_map 0 sample_proc2 = Ok (m, w'))
    as (m & w' & Hrun).
  { eexists _, _. vm_compute. reflexivity. }
  exists m, w'. split; [done|].
  destruct (RecvAll_keeps_keys_and_other_entries 7 false sample_map 0
              sample_proc2 m w' Hsize Hrun) as (_ & _ & Hdom & Hframe).
  split; [done|]. apply Hframe. vm_compute.
  intros Hin. repeat (apply elem_of_cons in Hin as [Hin|Hin]; [done|]).
  by apply elem_of_nil in Hin.
Defined.

Lemma Isend_count_wraps_witness :
  Isend 7 (mkVarMessage ["001"; "002"]%byte None [ "003"; "004"; "005" ]%byte)
        1 0 empty_proc
  = Ok (mkVarMessage ["003"; "004"; "005"]%byte (Some 0%nat)
                     ["003"; "004"; "005"]%byte,
        mkProc [] [mkPosted 0 1 7 ["003"; "004"; "005"]%byte 0] 1
               [CallEncode 1; CallIsend 1 3]).
Proof.
  assert (Z.of_nat (length (data (Encode 1
            (mkVarMessage ["001"; "002"]%byte None
                          ["003"; "004"; "005"]%byte))))
          = 0 * 2 ^ 32 + 3) as Hn by reflexivity.
  assert (- 2 ^ 31 <= 3 < 2 ^ 31) as Hc by lia.
  exact (Isend_count_wraps 7 _ 1 0 empty_proc 0 3 Hn Hc).
Defined.

Lemma Isend_Recv_round_trip_witness :
  (∃ this' ws',
     Isend 7 bytes_message 1 0 empty_proc = Ok (this', ws')
     ∧ outbox ws'
       = outbox empty_proc ++ [mkPosted 0 1 7 ["003"; "004"; "005"]%byte 0])
  ∧ Recv 7 true (VarMessage_new (D:=list byte)) 3 3 0 sample_arrival
    = Ok (mkVarMessage ["003"; "004"; "005"]%byte None
                       ["003"; "004"; "005"]%byte,
          mkProc [mkEnvelope 0 3 8 ["009"%byte]] [] 0
                 [CallRecv 3 3; CallDecode 3]).
Proof.
  assert (Z.of_nat (length (data (Encode 1 bytes_message))) <= INT_MAX)
    as Hlen by (vm_compute; discriminate).
  assert (extract (matches 0 (Some 3) 7) (inbox sample_arrival)
          = Some (arrive 3 (mkPosted 0 1 7 (data (Encode 1 bytes_message))
                              (next_request empty_proc)),
                  [mkEnvelope 0 3 8 ["009"%byte]])) as Hex by reflexivity.
  exact (Isend_Recv_round_trip 7 true bytes_message VarMessage_new
           1 3 0 empty_proc sample_arrival _ Hlen Hex).
Defined.
